(** * Mifare Classic card access (mifare.js): a shallow embedding

    The script classes [Mifare] and [Sector] of [src/mifare.js] drive a
    contactless reader through PC/SC pseudo-APDUs.  This development
    embeds
    - the byte-string primitives the script relies on,
    - JavaScript's 32-bit bitwise operators,
    - the CRC-8 checksum,
    - the access-condition codec and the key helpers working on the cached
      sector trailer, and the display helper [toASCII],
    - the card session and the sector operations, as a state-and-exception
      monad over an arbitrary card (a transition function answering APDUs),
    and proves the properties listed in the specification, followed by
    further properties read off the code.  [Sector.toString] is left out:
    it depends on the number and hexadecimal formatting of the engine. *)

From stdpp Require Import gmap list.
From Stdlib Require Import ZArith Lia.
From Stdlib.Strings Require Import Byte.
From Stdlib.Strings Require Ascii String.

Local Open Scope Z_scope.

(** ** Byte strings

    [ByteString] is the immutable byte sequence of the scripting engine;
    it is an external collaborator of the script. *)

Abbreviation ByteString := (list byte).

(** Unsigned value of a byte, in [0..255]. *)
Definition byteZ (b : byte) : Z := Z.of_N (Byte.to_N b).

(** The byte holding the eight low-order bits of a number. *)
Definition Zbyte (z : Z) : byte :=
  match Byte.of_N (Z.to_N (z mod 256)) with
  | Some b => b
  | None => x00
  end.

(** Exceptions raised by the engine: a command or byte-string primitive that
    fails ([GPError]), a failed [assert], and member access on [undefined]. *)
Inductive Exn := GPError | AssertionError | TypeError.

Inductive Result (A : Type) :=
| Ok (a : A)
| Err (e : Exn).
Arguments Ok {A} a.
Arguments Err {A} e.

Definition rbind {A B} (r : Result A) (k : A -> Result B) : Result B :=
  match r with
  | Ok a => k a
  | Err e => Err e
  end.

Module ByteStr.

(** [d.byteAt(i)]; only used below inside loops bounded by [d.length]. *)
Definition byteAt (d : ByteString) (i : nat) : Z :=
  match d !! i with
  | Some b => byteZ b
  | None => 0
  end.

(** [d.bytes(offset, count)]: fails when the range leaves the string. *)
Definition bytes (d : ByteString) (offset count : nat) : Result ByteString :=
  if (offset + count <=? length d)%nat
  then Ok (take count (drop offset d))
  else Err GPError.

(** [d.bytes(offset)]: the rest of the string from [offset]. *)
Definition bytes_from (d : ByteString) (offset : nat) : Result ByteString :=
  if (offset <=? length d)%nat
  then Ok (drop offset d)
  else Err GPError.

(** [d.concat(e)]. *)
Definition concat (d e : ByteString) : ByteString := d ++ e.

(** [d.toUnsigned()]: the big-endian unsigned value. *)
Definition toUnsigned (d : ByteString) : Z :=
  fold_left (fun acc b => acc * 256 + byteZ b) d 0.

(** Modelled from the spec: [ByteString.valueOf(value, length)] belongs to
    the scripting engine, which is not part of the sources; the
    specification describes it as the fixed-length big-endian encoding of
    an integer. *)
Fixpoint valueOf (value : Z) (length : nat) : ByteString :=
  match length with
  | O => []
  | S n => valueOf (value / 256) n ++ [Zbyte value]
  end.

(** [new ByteString("...", HEX)] for the literals of the script. *)
Definition ofList (l : list Z) : ByteString := map Zbyte l.

(** [bb.append(n)] of a [ByteBuffer] with a number: one byte. *)
Definition ofNumber (n : Z) : ByteString := [Zbyte n].

End ByteStr.

(** ** JavaScript's bitwise operators

    Operands are converted with ToInt32 (wrap-around modulo 2^32 into the
    signed range), shift counts are taken modulo 32; [+] on the integers
    met here is exact and stays [Z.add]. *)

Module JS.

Definition ToInt32 (x : Z) : Z := (x + 2 ^ 31) mod 2 ^ 32 - 2 ^ 31.

Definition and (a b : Z) : Z := Z.land (ToInt32 a) (ToInt32 b).
Definition or (a b : Z) : Z := Z.lor (ToInt32 a) (ToInt32 b).
Definition xor (a b : Z) : Z := Z.lxor (ToInt32 a) (ToInt32 b).
Definition not (a : Z) : Z := Z.lnot (ToInt32 a).
Definition shl (a n : Z) : Z := ToInt32 (Z.shiftl (ToInt32 a) (n mod 32)).
Definition shr (a n : Z) : Z := Z.shiftr (ToInt32 a) (n mod 32).

(** Truthiness of a number used as a condition. *)
Definition truthy (a : Z) : bool := negb (a =? 0).

End JS.

(** ** The reader transport

    [card.sendApdu] hands a command to the reader and comes back with the
    response data and a status word, which it stores in [card.SW]; when a
    list of accepted status words is passed and the status word is not in
    it, the call throws.  The card itself is any transition function on
    some state.  Every exchange is appended to a log, so that the commands
    an operation issues can be stated. *)

Inductive Body :=
| Data (d : ByteString)
| Le (n : Z).

Record Apdu := mkApdu {
  cla : Z;
  ins : Z;
  p1 : Z;
  p2 : Z;
  body : Body
}.

Record Exchange := mkExchange {
  ex_apdu : Apdu;
  ex_expect : option (list Z);
  ex_resp : ByteString;
  ex_sw : Z
}.

Record World (CardState : Type) := mkWorld {
  card_state : CardState;
  SW : Z;
  log : list Exchange
}.
Arguments mkWorld {CardState}.
Arguments card_state {CardState}.
Arguments SW {CardState}.
Arguments log {CardState}.

(** State and exceptions: a thrown exception keeps the state reached. *)
Definition M (S A : Type) : Type := S -> Result A * S.

Definition ret {S A} (a : A) : M S A := fun s => (Ok a, s).

Definition throw {S A} (e : Exn) : M S A := fun s => (Err e, s).

Definition bind {S A B} (m : M S A) (k : A -> M S B) : M S B :=
  fun s =>
    match m s with
    | (Ok a, s') => k a s'
    | (Err e, s') => (Err e, s')
    end.

Notation "'do' x <- m ; k" := (bind m (fun x => k))
  (at level 10, x name, m at level 100, k at level 200, only parsing).

Definition assert {S} (b : bool) : M S unit :=
  if b then ret tt else throw AssertionError.

(** ** The card session ([Mifare]) *)

Module Mifare.

Definition KEY_A : Z := 0x60.
Definition KEY_B : Z := 0x61.

Definition PUBLICKEYS : list ByteString :=
  [ ByteStr.ofList [0xFF; 0xFF; 0xFF; 0xFF; 0xFF; 0xFF];   (* Empty cards *)
    ByteStr.ofList [0xA0; 0xA1; 0xA2; 0xA3; 0xA4; 0xA5];   (* MAD Key A *)
    ByteStr.ofList [0xB0; 0xB1; 0xB2; 0xB3; 0xB4; 0xB5];   (* Default Key B *)
    ByteStr.ofList [0xD3; 0xF7; 0xD3; 0xF7; 0xD3; 0xF7] ]. (* NDEF Key A *)

(** *** CRC-8 checksum *)

Definition polynom : Z := 0x1d.

(** One pass of the body of [for (var b = 0; b < 8; b++)]. *)
Definition crc8_round (crc : Z) : Z :=
  let msb := JS.and crc 0x80 in
  let crc := JS.and (JS.shl crc 1) 0xFF in
  if JS.truthy msb then JS.xor crc polynom else crc.

Fixpoint crc8_rounds (n : nat) (crc : Z) : Z :=
  match n with
  | O => crc
  | S n => crc8_rounds n (crc8_round crc)
  end.

(** The outer loop, at index [i] with [k] bytes to go. *)
Fixpoint crc8_loop (data : ByteString) (i k : nat) (crc : Z) : Z :=
  match k with
  | O => crc
  | S k =>
      crc8_loop data (S i) k
        (crc8_rounds 8 (JS.xor crc (ByteStr.byteAt data i)))
  end.

Definition crc8 (data : ByteString) : Z :=
  crc8_loop data 0 (length data) 0xC7.

(** *** Commands *)

Section Session.

Context {CardState : Type}.
Variable transmit : CardState -> Apdu -> CardState * (ByteString * Z).

Definition sendApdu (a : Apdu) (expect : option (list Z))
  : M (World CardState) ByteString :=
  fun w =>
    let '(st, (resp, sw)) := transmit (card_state w) a in
    let w' := {| card_state := st; SW := sw;
                 log := log w ++ [mkExchange a expect resp sw] |} in
    match expect with
    | Some accepted =>
        if existsb (Z.eqb sw) accepted then (Ok resp, w') else (Err GPError, w')
    | None => (Ok resp, w')
    end.

(** [this.card.SW]. *)
Definition getSW : M (World CardState) Z := fun w => (Ok (SW w), w).

Definition getUID : M (World CardState) ByteString :=
  sendApdu (mkApdu 0xFF 0xCA 0x00 0x00 (Le 4)) (Some [0x9000]).

(** [keyid] is [None] when the caller passes [undefined], which is not a
    number. *)
Definition loadKey (keyid : option Z) (key : ByteString)
  : M (World CardState) unit :=
  match keyid with
  | None => throw AssertionError
  | Some keyid =>
      do _ <- assert (length key =? 6)%nat ;
      if (keyid =? 0x60) || (keyid =? 0x61)
      then do _ <- sendApdu (mkApdu 0xFF 0x82 0x00 keyid (Data key))
                         (Some [0x9000]) ;
           ret tt
      else do _ <- sendApdu (mkApdu 0xFF 0x82 0x20 keyid (Data key))
                         (Some [0x9000]) ;
           ret tt
  end.

Definition readBlock (block : Z) : M (World CardState) ByteString :=
  sendApdu (mkApdu 0xFF 0xB0 (JS.shr block 8) (JS.and block 0xFF) (Le 16))
           (Some [0x9000]).

Definition updateBlock (block : Z) (data : ByteString)
  : M (World CardState) ByteString :=
  do _ <- assert (length data =? 16)%nat ;
  sendApdu (mkApdu 0xFF 0xD6 (JS.shr block 8) (JS.and block 0xFF) (Data data))
           (Some [0x9000]).

Definition authenticate (block keytype keyid : Z) : M (World CardState) bool :=
  let bb := [] in
  let bb := bb ++ ByteStr.ofNumber 0x01 in
  let bb := bb ++ ByteStr.valueOf block 2 in
  let bb := bb ++ ByteStr.ofNumber keytype in
  let bb :=
    if negb (keyid =? 0x60) && negb (keyid =? 0x61)
    then bb ++ ByteStr.ofNumber keyid
    else bb ++ ByteStr.ofNumber 0x01 in
  do _ <- sendApdu (mkApdu 0xFF 0x86 0x00 0x00 (Data bb)) None ;
  do sw <- getSW ;
  ret (sw =? 0x9000).

End Session.

End Mifare.

(** ** Sectors ([Sector]) *)

Module Sector.

(** A sector object: its number, the blocks cached so far (a sparse
    JavaScript array indexed by block number) and the key ids by key type
    (the array [this.keyid], indexed by [keytype - Mifare.KEY_A]).  The
    back reference [this.mifare] is the card session the operations below
    are threaded through. *)
Record t := mk {
  no : Z;
  blocks : gmap Z ByteString;
  keyid : gmap Z Z
}.

(** [new Sector(mifare, no)]. *)
Definition new (n : Z) : t :=
  {| no := n; blocks := ∅; keyid := <[0 := 0]> (<[1 := 1]> ∅) |}.

Definition set_blocks (s : t) (b : gmap Z ByteString) : t :=
  {| no := no s; blocks := b; keyid := keyid s |}.

Definition set_keyid (s : t) (k : gmap Z Z) : t :=
  {| no := no s; blocks := blocks s; keyid := k |}.

Definition MASK_table : list Z := [ 0x00E0EE; 0x00D0DD; 0x00B0BB; 0x007077 ].

(** [Sector.MASK[block]]; an index outside the table reads [undefined],
    which [&] converts to 0. *)
Definition MASK (block : Z) : Z :=
  if block <? 0 then 0 else nth (Z.to_nat block) MASK_table 0.

(** *** The access-condition codec and the key helpers

    These touch the sector object only. *)

(** [this.blocks[3]], about to be dereferenced: a member access on
    [undefined] throws. *)
Definition trailer (s : t) : Result ByteString :=
  match blocks s !! 3 with
  | Some d => Ok d
  | None => Err TypeError
  end.

(** The expression returned by [getACforBlock]. *)
Definition decodeAC (c block : Z) : Z :=
  JS.shl (JS.and (JS.shr c (12 + block)) 0x01) 2 +
  JS.shl (JS.and (JS.shr c (0 + block)) 0x01) 1 +
  JS.and (JS.shr c (4 + block)) 0x01.

Definition getACforBlock (s : t) (block : Z) : Result Z :=
  rbind (trailer s) (fun d =>
  rbind (ByteStr.bytes d 6 3) (fun f =>
  let c := ByteStr.toUnsigned f in
  Ok (decodeAC c block))).

(** The three assignments to [c] in [setACforBlock]: [c &= ...], then
    [c |= ...] with the new bits, then [c |= ...] with the complements. *)
Definition clearAC (c block : Z) : Z := JS.and c (MASK block).

Definition insertAC (c block ac : Z) : Z :=
  JS.or c (JS.shl (JS.and (JS.shr ac 2) 0x01) (12 + block) +
           JS.shl (JS.and (JS.shr ac 1) 0x01) (0 + block) +
           JS.shl (JS.and ac 0x01) (4 + block)).

Definition complementAC (c : Z) : Z :=
  JS.or c (JS.shl (JS.and (JS.not c) 0xF) 20 +
           JS.shl (JS.and (JS.not c) 0xF0) 4 +
           JS.shl (JS.and (JS.not c) 0xF000) 4).

Definition encodeAC (c block ac : Z) : Z :=
  complementAC (insertAC (clearAC c block) block ac).

Definition setACforBlock (s : t) (block ac : Z) : Result t :=
  rbind (trailer s) (fun d0 =>
  rbind (ByteStr.bytes d0 6 3) (fun f =>
  let c := encodeAC (ByteStr.toUnsigned f) block ac in
  rbind (trailer s) (fun d =>
  rbind (ByteStr.bytes d 0 6) (fun keyA =>
  rbind (ByteStr.bytes_from d 9) (fun rest =>
  Ok (set_blocks s
        (<[3 := ByteStr.concat keyA
                  (ByteStr.concat (ByteStr.valueOf c 3) rest)]> (blocks s)))))))).

Definition setKeyA (s : t) (key : ByteString) : Result t :=
  rbind (trailer s) (fun d =>
  rbind (ByteStr.bytes_from d 6) (fun rest =>
  Ok (set_blocks s (<[3 := ByteStr.concat key rest]> (blocks s))))).

Definition setKeyB (s : t) (key : ByteString) : Result t :=
  rbind (trailer s) (fun d =>
  rbind (ByteStr.bytes d 0 10) (fun front =>
  Ok (set_blocks s (<[3 := ByteStr.concat front key]> (blocks s))))).

Definition setHeaderDataByte (s : t) (db : ByteString) : Result t :=
  rbind (trailer s) (fun d =>
  rbind (ByteStr.bytes d 0 9) (fun front =>
  rbind (ByteStr.bytes_from d 10) (fun rest =>
  Ok (set_blocks s
        (<[3 := ByteStr.concat (ByteStr.concat front db) rest]> (blocks s)))))).

(** [setKeyId(keyid, keytype)], [keytype] being [None] when omitted. *)
Definition setKeyId (s : t) (kid : Z) (keytype : option Z) : t :=
  let keytype := default Mifare.KEY_A keytype in
  set_keyid s (<[keytype - Mifare.KEY_A := kid]> (keyid s)).

(** *** Display *)

(** [String.fromCharCode(c)] for a code below 256, and the character [.]. *)
Definition fromCharCode (c : Z) : Ascii.ascii := Ascii.ascii_of_N (Z.to_N c).

Definition dot : Ascii.ascii := Ascii.ascii_of_N 0x2E.

(** The loop of [Sector.toASCII], at index [i] with [k] bytes to go and
    the string [str] built so far. *)
Fixpoint toASCII_loop (data : ByteString) (i k : nat) (str : String.string)
  : String.string :=
  match k with
  | O => str
  | S k =>
      let c := ByteStr.byteAt data i in
      toASCII_loop data (S i) k
        (if (0x20 <=? c) && (c <? 0x7F)
         then String.append str (String.String (fromCharCode c) String.EmptyString)
         else String.append str (String.String dot String.EmptyString))
  end.

Definition toASCII (data : ByteString) : String.string :=
  toASCII_loop data 0 (length data) String.EmptyString.

(** *** Operations talking to the card *)

Section Session.

Context {CardState : Type}.
Variable transmit : CardState -> Apdu -> CardState * (ByteString * Z).

(** The state is the sector object together with the card session. *)
Definition SM (A : Type) : Type := M (t * World CardState) A.

Definition this : SM t := fun st => (Ok (fst st), st).

Definition card {A} (m : M (World CardState) A) : SM A :=
  fun st =>
    let '(r, w) := m (snd st) in
    (r, (fst st, w)).

(** [this.blocks[block] = d]. *)
Definition setBlock (block : Z) (d : ByteString) : SM unit :=
  fun st => (Ok tt, (set_blocks (fst st) (<[block := d]> (blocks (fst st))), snd st)).

Definition read (block : Z) : SM ByteString :=
  do _ <- assert (0 <=? block) ;
  do _ <- assert (block <=? 3) ;
  do s <- this ;
  let blockoffs := JS.shl (no s) 2 + block in
  do d <- card (Mifare.readBlock transmit blockoffs) ;
  do _ <- setBlock block d ;
  ret d.

(** [update(block, data)], [data] being [None] when omitted; an uncached
    block then reaches [data.length] in [updateBlock] as [undefined]. *)
Definition update (block : Z) (data : option ByteString) : SM unit :=
  do s <- this ;
  do data <- match data with
             | None => ret (blocks s !! block)
             | Some d => do _ <- setBlock block d ; ret (Some d)
             end ;
  let blockoffs := JS.shl (no s) 2 + block in
  match data with
  | Some d => do _ <- card (Mifare.updateBlock transmit blockoffs d) ; ret tt
  | None => throw TypeError
  end.

(** A key type without a key id slot would hand [undefined] to the byte
    buffer of [Mifare.authenticate]; the engine rejects that. *)
Definition authenticate (block keytype : Z) : SM bool :=
  do s <- this ;
  match keyid s !! (keytype - Mifare.KEY_A) with
  | Some kid =>
      card (Mifare.authenticate transmit (JS.shl (no s) 2 + block) keytype kid)
  | None => throw TypeError
  end.

(** The loop of [authenticatePublic], at index [i] with the candidates
    [keys] still to try. *)
Fixpoint authenticatePublic_loop (keys : list ByteString) (i : Z)
    (block keytype : Z) : SM Z :=
  match keys with
  | [] => ret (-1)
  | key :: keys =>
      do s <- this ;
      do _ <- card (Mifare.loadKey transmit
                      (keyid s !! (keytype - Mifare.KEY_A)) key) ;
      do ok <- authenticate block keytype ;
      if ok then ret i
      else authenticatePublic_loop keys (i + 1) block keytype
  end.

Definition authenticatePublic (block keytype : Z) : SM Z :=
  authenticatePublic_loop Mifare.PUBLICKEYS 0 block keytype.

(** The loop of [readAll], at index [i] with [n] blocks to go and the
    buffer [bb] filled so far. *)
Fixpoint readAll_loop (i : Z) (n : nat) (bb : ByteString) : SM ByteString :=
  match n with
  | O => ret bb
  | S n =>
      do d <- read i ;
      readAll_loop (i + 1) n (bb ++ d)
  end.

(** [readAll(keytype)], [keytype] being [None] when omitted. *)
Definition readAll (keytype : option Z) : SM ByteString :=
  let keytype := default Mifare.KEY_A keytype in
  let bb := [] in
  do _ <- authenticate 0 keytype ;
  readAll_loop 0 4 bb.

End Session.

End Sector.


(** * Vocabulary of the statements *)

(** ** The checksum as the specification words it

    Start from 0xC7; for each byte, XOR it into the checksum, then eight
    times: test the high bit, shift left by one within eight bits, and XOR
    in 0x1D if the bit tested was set. *)

Definition crc8_spec_round (crc : Z) : Z :=
  let high := Z.testbit crc 7 in
  let crc := (2 * crc) mod 256 in
  if high then Z.lxor crc 0x1D else crc.

Definition crc8_spec_byte (crc : Z) (b : byte) : Z :=
  Nat.iter 8 crc8_spec_round (Z.lxor crc (byteZ b)).

Definition crc8_spec (data : ByteString) : Z :=
  fold_left crc8_spec_byte data 0xC7.

(** The reference vector of the comment that follows [Mifare.crc8]. *)
Definition crc8_ref : ByteString :=
  ByteStr.ofList
    [0x01; 0x01; 0x08; 0x01; 0x08; 0x01; 0x08; 0x00; 0x00; 0x00; 0x00;
     0x00; 0x00; 0x04; 0x00; 0x03; 0x10; 0x03; 0x10; 0x02; 0x10; 0x02;
     0x10; 0x00; 0x00; 0x00; 0x00; 0x00; 0x00; 0x11; 0x30].

(** A decidable property checked on [0 .. n-1]. *)
Fixpoint below (n : nat) (P : Z -> bool) : bool :=
  match n with
  | O => true
  | S n => P (Z.of_nat n) && below n P
  end.

Definition is_byte (x : Z) : bool := (0 <=? x) && (x <? 256).

(** ** Bitwise expressions over one unknown, and their bits

    The access-condition field is a function of the previous field built
    from [&], [|], [~], [<<] and constants; its bits are computed from the
    bits of the previous field. *)

Inductive bx :=
| BVar
| BConst (z : Z)
| BAnd (a b : bx)
| BOr (a b : bx)
| BNot (a : bx)
| BShl (a : bx) (n : Z).

Fixpoint bval (e : bx) (c : Z) : Z :=
  match e with
  | BVar => c
  | BConst z => z
  | BAnd a b => Z.land (bval a c) (bval b c)
  | BOr a b => Z.lor (bval a c) (bval b c)
  | BNot a => Z.lnot (bval a c)
  | BShl a n => Z.shiftl (bval a c) n
  end.

Fixpoint bbit (e : bx) (f : Z -> bool) (k : Z) : bool :=
  match e with
  | BVar => f k
  | BConst z => Z.testbit z k
  | BAnd a b => bbit a f k && bbit b f k
  | BOr a b => bbit a f k || bbit b f k
  | BNot a => if k <? 0 then false else negb (bbit a f k)
  | BShl a n => if k <? 0 then false else bbit a f (k - n)
  end.

(** The new access-condition bits at their positions. *)
Definition acbits (i : Z) (b2 b1 b0 : bool) : Z :=
  Z.shiftl (Z.b2z b2) (12 + i) + Z.shiftl (Z.b2z b1) (0 + i) +
  Z.shiftl (Z.b2z b0) (4 + i).

Definition bx_insert (i : Z) (b2 b1 b0 : bool) : bx :=
  BOr (BAnd BVar (BConst (Sector.MASK i))) (BConst (acbits i b2 b1 b0)).

Definition bx_compl (x : bx) : bx :=
  BOr (BOr (BShl (BAnd (BNot x) (BConst 0xF)) 20)
           (BShl (BAnd (BNot x) (BConst 0xF0)) 4))
      (BShl (BAnd (BNot x) (BConst 0xF000)) 4).

Definition bx_encode (i : Z) (b2 b1 b0 : bool) : bx :=
  BOr (bx_insert i b2 b1 b0) (bx_compl (bx_insert i b2 b1 b0)).

(** The complement bits in pure bitwise form. *)
Definition compl_bits (x : Z) : Z :=
  Z.lor (Z.lor (Z.shiftl (Z.land (Z.lnot x) 0xF) 20)
               (Z.shiftl (Z.land (Z.lnot x) 0xF0) 4))
        (Z.shiftl (Z.land (Z.lnot x) 0xF000) 4).

(** Bit [k] of the field after [setACforBlock(i, ac)], [f] giving the bits
    before and [b2 b1 b0] the bits of [ac]: a real bit owned by block [i]
    comes from [ac], any other real bit from the old field; a complement bit
    is the negation of the real bit it mirrors. *)
Definition real_bit (f : Z -> bool) (i : Z) (b2 b1 b0 : bool) (k : Z) : bool :=
  if k =? 12 + i then b2
  else if k =? 0 + i then b1
  else if k =? 4 + i then b0
  else f k.

Definition enc_bit (f : Z -> bool) (i : Z) (b2 b1 b0 : bool) (k : Z) : bool :=
  if (20 <=? k) && (k <? 24) then negb (real_bit f i b2 b1 b0 (k - 20))
  else if (16 <=? k) && (k <? 20) then negb (real_bit f i b2 b1 b0 (k - 4))
  else if (8 <=? k) && (k <? 12) then negb (real_bit f i b2 b1 b0 (k - 4))
  else if (0 <=? k) && (k <? 24) then real_bit f i b2 b1 b0 k
  else false.

(** Nibble [k] of a field, nibble 0 being the least significant. *)
Definition nibble (c k : Z) : Z := Z.land (Z.shiftr c (4 * k)) 0xF.

(** The redundancy law of the trailer: in the 24-bit field, nibble 3 holds
    the C1 bits, nibble 0 the C2 bits and nibble 1 the C3 bits; nibbles 4, 5
    and 2 hold their complements. *)
Definition redundant (c : Z) : Prop :=
  nibble c 4 = Z.land (Z.lnot (nibble c 3)) 0xF /\
  nibble c 5 = Z.land (Z.lnot (nibble c 0)) 0xF /\
  nibble c 2 = Z.land (Z.lnot (nibble c 1)) 0xF.

(** The bits block [i] owns, and the bits of the complement nibbles. *)
Definition owned (i k : Z) : bool :=
  (k =? 12 + i) || (k =? 0 + i) || (k =? 4 + i).

Definition complement_bit (k : Z) : bool :=
  ((8 <=? k) && (k <? 12)) || ((16 <=? k) && (k <? 24)).

(** The access-condition field of a trailer, and the trailer with a new
    field. *)
Definition acField (d : ByteString) : Z :=
  ByteStr.toUnsigned (take 3 (drop 6 d)).

Definition withField (d : ByteString) (c : Z) : ByteString :=
  take 6 (drop 0 d) ++ ByteStr.valueOf c 3 ++ drop 9 d.

(** [d'] holds [new] in the byte range [lo, hi) and agrees with [d] outside
    it; the length is kept. *)
Definition overwrites (d d' new : ByteString) (lo hi : nat) : Prop :=
  length d' = length d /\
  (forall k, (lo <= k < hi)%nat -> d' !! k = new !! (k - lo)%nat) /\
  (forall k, (k < lo \/ hi <= k)%nat -> d' !! k = d !! k).

(** ** Commands and transcripts *)

(** The id byte of the General Authenticate payload. *)
Definition idByte (keyid : Z) : Z :=
  if (keyid =? 0x60) || (keyid =? 0x61) then 0x01 else keyid.

(** General Authenticate for an absolute block address. *)
Definition authApdu (addr keytype keyid : Z) : Apdu :=
  mkApdu 0xFF 0x86 0x00 0x00
    (Data ([Zbyte 0x01] ++ ByteStr.valueOf addr 2 ++
           [Zbyte keytype; Zbyte (idByte keyid)])).

(** Read Binary for an absolute block address. *)
Definition readApdu (addr : Z) : Apdu :=
  mkApdu 0xFF 0xB0 (addr / 256) (addr mod 256) (Le 16).

(** Load Key for a key id and a key. *)
Definition loadKeyApdu (kid : Z) (key : ByteString) : Apdu :=
  mkApdu 0xFF 0x82 (if (kid =? 0x60) || (kid =? 0x61) then 0x00 else 0x20)
         kid (Data key).

Definition accepted (e : Exchange) : Prop := ex_sw e = 0x9000.

(** Trying one candidate key: the key is loaded, which the reader accepts,
    and the authentication is attempted. *)
Definition probe_of (kid addr keytype : Z) (key : ByteString)
    (p : Exchange * Exchange) : Prop :=
  ex_apdu (fst p) = loadKeyApdu kid key /\
  ex_expect (fst p) = Some [0x9000] /\
  accepted (fst p) /\
  ex_apdu (snd p) = authApdu addr keytype kid /\
  ex_expect (snd p) = None.

Definition flatten (ps : list (Exchange * Exchange)) : list Exchange :=
  flat_map (fun p => [fst p; snd p]) ps.

Section Transcript.

Context {CardState : Type}.
Variable transmit : CardState -> Apdu -> CardState * (ByteString * Z).

(** The exchange a command leads to from the world [w], and the world
    after it. *)
Definition exchange (w : World CardState) (a : Apdu) (expect : option (list Z))
  : Exchange :=
  mkExchange a expect (fst (snd (transmit (card_state w) a)))
             (snd (snd (transmit (card_state w) a))).

Definition after (w : World CardState) (a : Apdu) (expect : option (list Z))
  : World CardState :=
  {| card_state := fst (transmit (card_state w) a);
     SW := snd (snd (transmit (card_state w) a));
     log := log w ++ [exchange w a expect] |}.

(** The exchanges [es] are what the card answers, one after the other from
    the world [w], to the commands they carry, and [w'] is the world they
    leave: the state of the card, the last status word and the log. *)
Fixpoint plays (w : World CardState) (es : list Exchange) (w' : World CardState)
  : Prop :=
  match es with
  | [] => w' = w
  | e :: es =>
      e = exchange w (ex_apdu e) (ex_expect e) /\
      plays (after w (ex_apdu e) (ex_expect e)) es w'
  end.

End Transcript.

(** ** Sample values *)

(** A trailer in transport configuration, and a sector holding it. *)
Definition tr0 : ByteString :=
  ByteStr.ofList [0xFF; 0xFF; 0xFF; 0xFF; 0xFF; 0xFF; 0xFF; 0x07; 0x80; 0x69;
                  0xFF; 0xFF; 0xFF; 0xFF; 0xFF; 0xFF].

Definition s0 : Sector.t :=
  Sector.set_blocks (Sector.new 1) (<[3 := tr0]> ∅).

Definition key0 : ByteString :=
  ByteStr.ofList [0xA0; 0xA1; 0xA2; 0xA3; 0xA4; 0xA5].

(** A card answering every command with 0x9000 and sixteen zero bytes, a
    card refusing every command, a card refusing General Authenticate and
    accepting everything else, and a card accepting its first [n] commands
    only. *)
Definition cardOk (st : unit) (a : Apdu) : unit * (ByteString * Z) :=
  (tt, (repeat x00 16, 0x9000)).

Definition rejecting (st : unit) (a : Apdu) : unit * (ByteString * Z) :=
  (tt, ([], 0x6982)).


Definition card_until (n : nat) (st : nat) (a : Apdu) : nat * (ByteString * Z) :=
  (S st, (repeat (Zbyte (Z.of_nat st)) 16,
          if (st <? n)%nat then 0x9000 else 0x6982)).

Definition w0 : World unit := mkWorld tt 0 [].

Definition wn : World nat := mkWorld 0%nat 0 [].

(** ** Case analysis on block numbers and bit positions *)

Ltac block_cases i :=
  match goal with
  | H : 0 <= i <= 3 |- _ =>
      let E := fresh "E" in
      assert (E : i = 0 \/ i = 1 \/ i = 2 \/ i = 3) by lia;
      clear H; destruct E as [-> | [-> | [-> | ->]]]
  end.

Ltac bit_cases k :=
  match goal with
  | H : 0 <= k < 24 |- _ =>
      let E := fresh "E" in
      assert (E : k = 0 \/ k = 1 \/ k = 2 \/ k = 3 \/ k = 4 \/ k = 5 \/ k = 6 \/
                  k = 7 \/ k = 8 \/ k = 9 \/ k = 10 \/ k = 11 \/ k = 12 \/
                  k = 13 \/ k = 14 \/ k = 15 \/ k = 16 \/ k = 17 \/ k = 18 \/
                  k = 19 \/ k = 20 \/ k = 21 \/ k = 22 \/ k = 23) by lia;
      clear H;
      repeat (destruct E as [-> | E]); [.. | subst k]
  end.

(** ** Vocabulary of the further properties *)

(** Distinct checksums go to distinct checksums through the eight rounds. *)
Definition rounds_injective_on (x : Z) : bool :=
  below 256 (fun y =>
    implb (Nat.iter 8 crc8_spec_round x =? Nat.iter 8 crc8_spec_round y) (x =? y)).

(** The character [toASCII] shows for a byte. *)
Definition shown (b : byte) : Ascii.ascii :=
  if (0x20 <=? byteZ b) && (byteZ b <? 0x7F)
  then Sector.fromCharCode (byteZ b) else Sector.dot.

(** * Properties *)

Lemma ToInt32_small x : - 2 ^ 31 <= x < 2 ^ 31 -> JS.ToInt32 x = x.
Proof.
  intros H. unfold JS.ToInt32.
  rewrite Z.mod_small by lia. lia.
Qed.

Lemma ToInt32_range x : - 2 ^ 31 <= JS.ToInt32 x < 2 ^ 31.
Proof.
  unfold JS.ToInt32.
  pose proof (Z.mod_pos_bound (x + 2 ^ 31) (2 ^ 32) ltac:(lia)). lia.
Qed.

Lemma ToInt32_testbit x k : 0 <= k < 32 -> Z.testbit (JS.ToInt32 x) k = Z.testbit x k.
Proof.
  intros Hk.
  rewrite <- (Z.mod_pow2_bits_low (JS.ToInt32 x) 32 k) by lia.
  rewrite <- (Z.mod_pow2_bits_low x 32 k) by lia.
  f_equal. unfold JS.ToInt32.
  rewrite Zminus_mod, Z.mod_mod by lia.
  rewrite <- Zminus_mod. f_equal. lia.
Qed.

Lemma land_upper a m : 0 <= m -> 0 <= Z.land a m <= m.
Proof.
  intros Hm. split.
  - apply Z.land_nonneg. now right.
  - assert (H : m = Z.land a m + Z.ldiff m a).
    { rewrite Z.add_nocarry_lor.
      - rewrite (Z.land_comm a m), Z.lor_comm. symmetry. apply Z.lor_ldiff_and.
      - apply Z.bits_inj'. intros n Hn.
        rewrite !Z.land_spec, Z.ldiff_spec, Z.bits_0.
        destruct (Z.testbit a n), (Z.testbit m n); reflexivity. }
    assert (0 <= Z.ldiff m a) by (apply Z.ldiff_nonneg; now left).
    lia.
Qed.

Lemma land_1_bit x : Z.land x 1 = Z.b2z (Z.testbit x 0).
Proof.
  change 1 with (Z.ones 1). rewrite Z.land_ones by lia.
  rewrite Z.bit0_mod. reflexivity.
Qed.

(** [(x >> k) & 1] reads bit [k]. *)
Lemma shr_and_1 x k : 0 <= k < 32 ->
  JS.and (JS.shr x k) 1 = Z.b2z (Z.testbit x k).
Proof.
  intros Hk. unfold JS.and, JS.shr.
  rewrite Z.mod_small by lia.
  rewrite (ToInt32_small 1) by lia.
  rewrite land_1_bit.
  rewrite ToInt32_testbit by lia.
  rewrite Z.shiftr_spec by lia.
  rewrite ToInt32_testbit by lia. reflexivity.
Qed.

Lemma lor_upper a b : 0 <= a -> 0 <= b -> 0 <= Z.lor a b <= a + b.
Proof.
  intros Ha Hb. split.
  - apply Z.lor_nonneg. lia.
  - pose proof (Z.add_lor_land a b).
    assert (0 <= Z.land a b) by (apply Z.land_nonneg; lia). lia.
Qed.

Lemma and_1 x : JS.and x 1 = Z.b2z (Z.testbit x 0).
Proof.
  unfold JS.and. rewrite (ToInt32_small 1) by lia.
  rewrite land_1_bit, ToInt32_testbit by lia. reflexivity.
Qed.

Lemma land_masks_disjoint a b m1 m2 :
  Z.land m1 m2 = 0 -> Z.land (Z.land a m1) (Z.land b m2) = 0.
Proof.
  intros H. apply Z.bits_inj'. intros n Hn.
  assert (Hb : Z.testbit (Z.land m1 m2) n = false) by (rewrite H; apply Z.bits_0).
  rewrite Z.land_spec in Hb.
  rewrite !Z.land_spec, Z.bits_0.
  destruct (Z.testbit m1 n), (Z.testbit m2 n); try discriminate;
    destruct (Z.testbit a n), (Z.testbit b n); reflexivity.
Qed.

Lemma complementAC_bitwise x :
  0 <= x < 2 ^ 24 ->
  Sector.complementAC x = Z.lor x (compl_bits x) /\
  0 <= compl_bits x <= 0xFF0F00.
Proof.
  intros Hx. unfold Sector.complementAC, JS.or, JS.shl, JS.and, JS.not, compl_bits.
  rewrite !(ToInt32_small x) by lia.
  rewrite (ToInt32_small 0xF), (ToInt32_small 0xF0), (ToInt32_small 0xF000) by lia.
  change (20 mod 32) with 20. change (4 mod 32) with 4.
  set (u := Z.lnot x).
  assert (Hu : - 2 ^ 31 <= u < 2 ^ 31) by (unfold u, Z.lnot; lia).
  clearbody u.
  rewrite (ToInt32_small u) by lia.
  pose proof (land_upper u 0xF ltac:(lia)) as H0.
  pose proof (land_upper u 0xF0 ltac:(lia)) as H1.
  pose proof (land_upper u 0xF000 ltac:(lia)) as H3.
  rewrite (ToInt32_small (Z.land u 0xF)), (ToInt32_small (Z.land u 0xF0)),
    (ToInt32_small (Z.land u 0xF000)) by lia.
  assert (E0 : Z.shiftl (Z.land u 0xF) 20 = Z.land u 0xF * 2 ^ 20) by (apply Z.shiftl_mul_pow2; lia).
  assert (E1 : Z.shiftl (Z.land u 0xF0) 4 = Z.land u 0xF0 * 2 ^ 4) by (apply Z.shiftl_mul_pow2; lia).
  assert (E3 : Z.shiftl (Z.land u 0xF000) 4 = Z.land u 0xF000 * 2 ^ 4) by (apply Z.shiftl_mul_pow2; lia).
  rewrite (ToInt32_small (Z.shiftl (Z.land u 0xF) 20)),
    (ToInt32_small (Z.shiftl (Z.land u 0xF0) 4)),
    (ToInt32_small (Z.shiftl (Z.land u 0xF000) 4)) by lia.
  assert (D01 : Z.land (Z.shiftl (Z.land u 0xF) 20) (Z.shiftl (Z.land u 0xF0) 4) = 0).
  { rewrite !Z.shiftl_land. apply land_masks_disjoint. reflexivity. }
  assert (D03 : Z.land (Z.shiftl (Z.land u 0xF) 20) (Z.shiftl (Z.land u 0xF000) 4) = 0).
  { rewrite !Z.shiftl_land. apply land_masks_disjoint. reflexivity. }
  assert (D13 : Z.land (Z.shiftl (Z.land u 0xF0) 4) (Z.shiftl (Z.land u 0xF000) 4) = 0).
  { rewrite !Z.shiftl_land. apply land_masks_disjoint. reflexivity. }
  assert (S : Z.shiftl (Z.land u 0xF) 20 + Z.shiftl (Z.land u 0xF0) 4 +
               Z.shiftl (Z.land u 0xF000) 4 =
             Z.lor (Z.lor (Z.shiftl (Z.land u 0xF) 20) (Z.shiftl (Z.land u 0xF0) 4))
                   (Z.shiftl (Z.land u 0xF000) 4)).
  { rewrite (Z.add_nocarry_lor _ _ D01).
    apply Z.add_nocarry_lor.
    rewrite Z.land_lor_distr_l, D03, D13. reflexivity. }
  rewrite S. rewrite <- S at 1. rewrite ToInt32_small by lia.
  rewrite <- S at 2. split; [rewrite S; reflexivity | lia].
Qed.

Lemma bbit_ok e c k : Z.testbit (bval e c) k = bbit e (Z.testbit c) k.
Proof.
  revert k. induction e as [| z | a IHa b IHb | a IHa b IHb | a IHa | a IHa n];
    intros k; simpl.
  - reflexivity.
  - reflexivity.
  - rewrite Z.land_spec, IHa, IHb. reflexivity.
  - rewrite Z.lor_spec, IHa, IHb. reflexivity.
  - destruct (Z.ltb_spec k 0).
    + apply Z.testbit_neg_r. assumption.
    + rewrite Z.lnot_spec, IHa by assumption. reflexivity.
  - destruct (Z.ltb_spec k 0).
    + apply Z.testbit_neg_r. assumption.
    + rewrite Z.shiftl_spec, IHa by assumption. reflexivity.
Qed.

Lemma shl_bit (b : bool) n : 0 <= n < 16 -> JS.shl (Z.b2z b) n = Z.shiftl (Z.b2z b) n.
Proof.
  intros Hn. unfold JS.shl.
  rewrite Z.mod_small by lia.
  rewrite (ToInt32_small (Z.b2z b)) by (destruct b; simpl; lia).
  apply ToInt32_small.
  rewrite Z.shiftl_mul_pow2 by lia.
  assert (0 < 2 ^ n <= 2 ^ 15) by (split; [lia | apply Z.pow_le_mono_r; lia]).
  destruct b; simpl Z.b2z; lia.
Qed.

Lemma encodeAC_bval c i ac :
  0 <= c < 2 ^ 24 -> 0 <= i <= 3 ->
  Sector.encodeAC c i ac =
    bval (bx_encode i (Z.testbit ac 2) (Z.testbit ac 1) (Z.testbit ac 0)) c /\
  0 <= Sector.encodeAC c i ac < 2 ^ 24.
Proof.
  intros Hc Hi.
  set (b2 := Z.testbit ac 2). set (b1 := Z.testbit ac 1). set (b0 := Z.testbit ac 0).
  assert (HM : 0 <= Sector.MASK i /\ Sector.MASK i + acbits i b2 b1 b0 <= 0xF0FF
               /\ 0 <= acbits i b2 b1 b0 < 2 ^ 16).
  { block_cases i; destruct b2, b1, b0; vm_compute; intuition congruence. }
  destruct HM as (HM0 & HM1 & HK).
  assert (Hclear : Sector.clearAC c i = Z.land c (Sector.MASK i)).
  { unfold Sector.clearAC, JS.and. rewrite !ToInt32_small by lia. reflexivity. }
  pose proof (land_upper c (Sector.MASK i) HM0) as Hc1.
  assert (Hins : Sector.insertAC (Sector.clearAC c i) i ac =
                 bval (bx_insert i b2 b1 b0) c).
  { unfold Sector.insertAC. rewrite !shr_and_1, and_1 by lia.
    rewrite !shl_bit by lia. fold b2 b1 b0. fold (acbits i b2 b1 b0).
    unfold JS.or. rewrite Hclear, !ToInt32_small by lia. reflexivity. }
  assert (Hc2 : 0 <= bval (bx_insert i b2 b1 b0) c <= 0xF0FF).
  { simpl. pose proof (lor_upper (Z.land c (Sector.MASK i)) (acbits i b2 b1 b0)). lia. }
  unfold Sector.encodeAC. rewrite Hins.
  destruct (complementAC_bitwise (bval (bx_insert i b2 b1 b0) c)) as [E B]; [lia|].
  rewrite E. split; [reflexivity|].
  pose proof (lor_upper (bval (bx_insert i b2 b1 b0) c)
                (compl_bits (bval (bx_insert i b2 b1 b0) c))). lia.
Qed.

Lemma bx_encode_bit f i b2 b1 b0 k :
  0 <= i <= 3 -> 0 <= k < 24 ->
  bbit (bx_encode i b2 b1 b0) f k = enc_bit f i b2 b1 b0 k.
Proof.
  intros Hi Hk. block_cases i; destruct b2, b1, b0; bit_cases k;
    vm_compute;
    repeat match goal with |- context [f ?n] => destruct (f n) end;
    reflexivity.
Qed.

Lemma encodeAC_testbit c i ac k :
  0 <= c < 2 ^ 24 -> 0 <= i <= 3 -> 0 <= k < 24 ->
  Z.testbit (Sector.encodeAC c i ac) k =
  enc_bit (Z.testbit c) i (Z.testbit ac 2) (Z.testbit ac 1) (Z.testbit ac 0) k.
Proof.
  intros Hc Hi Hk.
  destruct (encodeAC_bval c i ac Hc Hi) as [-> _].
  rewrite bbit_ok. apply bx_encode_bit; assumption.
Qed.

Lemma decodeAC_bits c j :
  0 <= j <= 3 ->
  Sector.decodeAC c j =
  4 * Z.b2z (Z.testbit c (12 + j)) + 2 * Z.b2z (Z.testbit c (0 + j)) +
  Z.b2z (Z.testbit c (4 + j)).
Proof.
  intros Hj. unfold Sector.decodeAC.
  rewrite !shr_and_1 by lia. rewrite !shl_bit by lia.
  rewrite !Z.shiftl_mul_pow2 by lia. change (2 ^ 2) with 4. change (2 ^ 1) with 2.
  lia.
Qed.

Lemma enc_bit_own f i b2 b1 b0 :
  0 <= i <= 3 ->
  enc_bit f i b2 b1 b0 (12 + i) = b2 /\
  enc_bit f i b2 b1 b0 (0 + i) = b1 /\
  enc_bit f i b2 b1 b0 (4 + i) = b0.
Proof. intros Hi. block_cases i; repeat split; reflexivity. Qed.

Lemma enc_bit_frame f i j b2 b1 b0 :
  0 <= i <= 3 -> 0 <= j <= 3 -> j <> i ->
  enc_bit f i b2 b1 b0 (12 + j) = f (12 + j) /\
  enc_bit f i b2 b1 b0 (0 + j) = f (0 + j) /\
  enc_bit f i b2 b1 b0 (4 + j) = f (4 + j).
Proof.
  intros Hi Hj Hne. block_cases i; block_cases j; try congruence;
    repeat split; reflexivity.
Qed.

Lemma enc_bit_mirror f i b2 b1 b0 n :
  0 <= n < 4 ->
  enc_bit f i b2 b1 b0 (n + 16) = negb (enc_bit f i b2 b1 b0 (n + 12)) /\
  enc_bit f i b2 b1 b0 (n + 20) = negb (enc_bit f i b2 b1 b0 (n + 0)) /\
  enc_bit f i b2 b1 b0 (n + 8) = negb (enc_bit f i b2 b1 b0 (n + 4)).
Proof.
  intros Hn.
  assert (E : n = 0 \/ n = 1 \/ n = 2 \/ n = 3) by lia.
  destruct E as [-> | [-> | [-> | ->]]]; repeat split; reflexivity.
Qed.

Lemma ac_of_bits v :
  0 <= v <= 7 ->
  4 * Z.b2z (Z.testbit v 2) + 2 * Z.b2z (Z.testbit v 1) + Z.b2z (Z.testbit v 0) = v.
Proof.
  intros Hv.
  assert (E : v = 0 \/ v = 1 \/ v = 2 \/ v = 3 \/ v = 4 \/ v = 5 \/ v = 6 \/ v = 7) by lia.
  repeat (destruct E as [-> | E]; [reflexivity|]). subst v. reflexivity.
Qed.

(** Field level: decoding what was encoded. *)
Lemma decode_encode c i v :
  0 <= c < 2 ^ 24 -> 0 <= i <= 3 -> 0 <= v <= 7 ->
  Sector.decodeAC (Sector.encodeAC c i v) i = v.
Proof.
  intros Hc Hi Hv. rewrite decodeAC_bits by assumption.
  rewrite !encodeAC_testbit by lia.
  destruct (enc_bit_own (Z.testbit c) i (Z.testbit v 2) (Z.testbit v 1)
              (Z.testbit v 0) Hi) as (-> & -> & ->).
  apply ac_of_bits. assumption.
Qed.

Lemma decode_encode_other c i j v :
  0 <= c < 2 ^ 24 -> 0 <= i <= 3 -> 0 <= j <= 3 -> j <> i ->
  Sector.decodeAC (Sector.encodeAC c i v) j = Sector.decodeAC c j.
Proof.
  intros Hc Hi Hj Hne. rewrite !decodeAC_bits by assumption.
  rewrite !encodeAC_testbit by lia.
  destruct (enc_bit_frame (Z.testbit c) i j (Z.testbit v 2) (Z.testbit v 1)
              (Z.testbit v 0) Hi Hj Hne) as (-> & -> & ->).
  reflexivity.
Qed.

(** Bytes. *)
Lemma byteZ_range b : 0 <= byteZ b < 256.
Proof.
  unfold byteZ. pose proof (Byte.to_N_bounded b). lia.
Qed.

Lemma byteZ_Zbyte z : byteZ (Zbyte z) = z mod 256.
Proof.
  unfold byteZ, Zbyte.
  pose proof (Z.mod_pos_bound z 256 ltac:(lia)) as Hm.
  destruct (Byte.of_N (Z.to_N (z mod 256))) as [b|] eqn:E.
  - apply Byte.to_of_N in E. rewrite E. lia.
  - apply Byte.of_N_None_iff in E. lia.
Qed.

Lemma toUnsigned_snoc d b :
  ByteStr.toUnsigned (d ++ [b]) = ByteStr.toUnsigned d * 256 + byteZ b.
Proof. unfold ByteStr.toUnsigned. rewrite fold_left_app. reflexivity. Qed.

Lemma toUnsigned_range d :
  0 <= ByteStr.toUnsigned d < 256 ^ Z.of_nat (length d).
Proof.
  induction d as [|b d IH] using rev_ind.
  - change (0 <= 0 < 1). lia.
  - rewrite toUnsigned_snoc, length_app. simpl length.
    replace (Z.of_nat (length d + 1)) with (Z.succ (Z.of_nat (length d))) by lia.
    rewrite Z.pow_succ_r by lia.
    pose proof (byteZ_range b). lia.
Qed.

Lemma valueOf_length v n : length (ByteStr.valueOf v n) = n.
Proof.
  revert v. induction n as [|n IH]; intros v; simpl; [reflexivity|].
  rewrite length_app, IH. simpl. lia.
Qed.

Lemma toUnsigned_valueOf v n :
  0 <= v < 256 ^ Z.of_nat n -> ByteStr.toUnsigned (ByteStr.valueOf v n) = v.
Proof.
  revert v. induction n as [|n IH]; intros v Hv.
  - change (0 <= v < 1) in Hv. change (0 = v). lia.
  - simpl ByteStr.valueOf. rewrite toUnsigned_snoc, byteZ_Zbyte.
    replace (Z.of_nat (S n)) with (Z.succ (Z.of_nat n)) in Hv by lia.
    rewrite Z.pow_succ_r in Hv by lia.
    rewrite IH.
    + pose proof (Z.div_mod v 256 ltac:(lia)). lia.
    + split; [apply Z.div_pos; lia|].
      apply Z.div_lt_upper_bound; lia.
Qed.

(** The access-condition field of a 16-byte trailer. *)
Lemma bytes_in_range (d : ByteString) offset count :
  (offset + count <= length d)%nat ->
  ByteStr.bytes d offset count = Ok (take count (drop offset d)).
Proof.
  intros H. unfold ByteStr.bytes.
  destruct (Nat.leb_spec (offset + count) (length d)); [reflexivity | lia].
Qed.

Lemma bytes_from_in_range (d : ByteString) offset :
  (offset <= length d)%nat ->
  ByteStr.bytes_from d offset = Ok (drop offset d).
Proof.
  intros H. unfold ByteStr.bytes_from.
  destruct (Nat.leb_spec offset (length d)); [reflexivity | lia].
Qed.

Lemma acField_range d : length d = 16%nat -> 0 <= acField d < 2 ^ 24.
Proof.
  intros Hd. unfold acField.
  pose proof (toUnsigned_range (take 3 (drop 6 d))) as H.
  rewrite length_take, length_drop, Hd in H. exact H.
Qed.

Lemma getACforBlock_trailer s d block :
  Sector.blocks s !! 3 = Some d -> length d = 16%nat ->
  Sector.getACforBlock s block = Ok (Sector.decodeAC (acField d) block).
Proof.
  intros Hs Hd. unfold Sector.getACforBlock, Sector.trailer. rewrite Hs. simpl.
  rewrite bytes_in_range by (rewrite Hd; lia). reflexivity.
Qed.

Lemma setACforBlock_trailer s d block ac :
  Sector.blocks s !! 3 = Some d -> length d = 16%nat ->
  Sector.setACforBlock s block ac =
  Ok (Sector.set_blocks s
        (<[3 := withField d (Sector.encodeAC (acField d) block ac)]>
           (Sector.blocks s))).
Proof.
  intros Hs Hd. unfold Sector.setACforBlock, Sector.trailer. rewrite Hs. simpl.
  rewrite !bytes_in_range by (rewrite Hd; lia).
  rewrite bytes_from_in_range by (rewrite Hd; lia). reflexivity.
Qed.

Lemma withField_length d c : length d = 16%nat -> length (withField d c) = 16%nat.
Proof.
  intros Hd. unfold withField.
  rewrite !length_app, length_take, !length_drop, valueOf_length, Hd. reflexivity.
Qed.

Lemma acField_withField d c :
  length d = 16%nat -> 0 <= c < 2 ^ 24 -> acField (withField d c) = c.
Proof.
  intros Hd Hc. unfold acField, withField.
  rewrite drop_app_length'
    by (rewrite length_take, length_drop, Hd; reflexivity).
  rewrite take_app_length' by (symmetry; apply valueOf_length).
  apply toUnsigned_valueOf. exact Hc.
Qed.

(** C1: with a 16-byte trailer cached, [setACforBlock(i, v)] followed by
    [getACforBlock(i)] gives [v] back, for [v] in 0..7 and [i] in 0..3, and
    [getACforBlock(j)] is the same before and after for every other block. *)
Theorem setACforBlock_getACforBlock (s : Sector.t) (d : ByteString) (i v : Z) :
  Sector.blocks s !! 3 = Some d -> length d = 16%nat ->
  0 <= i <= 3 -> 0 <= v <= 7 ->
  exists s',
    Sector.setACforBlock s i v = Ok s' /\
    Sector.getACforBlock s' i = Ok v /\
    forall j, 0 <= j <= 3 -> j <> i ->
      Sector.getACforBlock s' j = Sector.getACforBlock s j.
Proof.
  intros Hs Hd Hi Hv.
  pose proof (acField_range d Hd) as Hc.
  destruct (encodeAC_bval (acField d) i v Hc Hi) as [_ Hc'].
  eexists. split; [apply (setACforBlock_trailer s d i v Hs Hd)|].
  set (d' := withField d (Sector.encodeAC (acField d) i v)).
  assert (Hs' : Sector.blocks (Sector.set_blocks s (<[3 := d']> (Sector.blocks s))) !! 3
                = Some d') by (simpl; apply lookup_insert_eq).
  assert (Hd' : length d' = 16%nat) by (apply withField_length; assumption).
  assert (Hf : acField d' = Sector.encodeAC (acField d) i v)
    by (apply acField_withField; assumption).
  split.
  - rewrite (getACforBlock_trailer _ d' i Hs' Hd'), Hf.
    f_equal. apply decode_encode; assumption.
  - intros j Hj Hne.
    rewrite (getACforBlock_trailer _ d' j Hs' Hd'), Hf.
    rewrite (getACforBlock_trailer s d j Hs Hd).
    f_equal. apply decode_encode_other; assumption.
Qed.

Lemma testbit_nibble c k n :
  0 <= k -> 0 <= n ->
  Z.testbit (nibble c k) n = Z.testbit c (n + 4 * k) && (n <? 4).
Proof.
  intros Hk Hn. unfold nibble.
  rewrite Z.land_spec, Z.shiftr_spec by assumption.
  change 0xF with (Z.ones 4).
  rewrite Z.testbit_ones_nonneg by lia. reflexivity.
Qed.

Lemma testbit_compl_nibble x n :
  0 <= n ->
  Z.testbit (Z.land (Z.lnot x) 0xF) n = negb (Z.testbit x n) && (n <? 4).
Proof.
  intros Hn. rewrite Z.land_spec, Z.lnot_spec by assumption.
  change 0xF with (Z.ones 4).
  rewrite Z.testbit_ones_nonneg by lia. reflexivity.
Qed.

Lemma mirrored_nibbles c hi lo :
  0 <= hi -> 0 <= lo ->
  (forall n, 0 <= n < 4 ->
     Z.testbit c (n + 4 * hi) = negb (Z.testbit c (n + 4 * lo))) ->
  nibble c hi = Z.land (Z.lnot (nibble c lo)) 0xF.
Proof.
  intros Hhi Hlo H. apply Z.bits_inj'. intros n Hn.
  rewrite testbit_compl_nibble, !testbit_nibble by assumption.
  destruct (Z.ltb_spec n 4).
  - rewrite H by lia. rewrite !andb_true_r. reflexivity.
  - rewrite !andb_false_r. reflexivity.
Qed.

Lemma encodeAC_redundant c i ac :
  0 <= c < 2 ^ 24 -> 0 <= i <= 3 -> redundant (Sector.encodeAC c i ac).
Proof.
  intros Hc Hi.
  repeat split; apply mirrored_nibbles; try lia; intros n Hn;
    rewrite !encodeAC_testbit by lia;
    apply (enc_bit_mirror (Z.testbit c) i (Z.testbit ac 2) (Z.testbit ac 1)
             (Z.testbit ac 0) n Hn).
Qed.

(** C2, amended: after [setACforBlock(i, v)] with a block index [i] in
    0..3 on a cached 16-byte trailer, whatever integer [v] is, the field in
    bytes 6..8 obeys the redundancy law: each complement nibble is the 4-bit
    complement of the nibble it mirrors. *)
Theorem setACforBlock_redundancy (s : Sector.t) (d : ByteString) (i v : Z) :
  Sector.blocks s !! 3 = Some d -> length d = 16%nat -> 0 <= i <= 3 ->
  exists s' d' f,
    Sector.setACforBlock s i v = Ok s' /\
    Sector.blocks s' !! 3 = Some d' /\
    ByteStr.bytes d' 6 3 = Ok f /\
    redundant (ByteStr.toUnsigned f).
Proof.
  intros Hs Hd Hi.
  pose proof (acField_range d Hd) as Hc.
  destruct (encodeAC_bval (acField d) i v Hc Hi) as [_ Hc'].
  eexists _, _, _. split; [apply (setACforBlock_trailer s d i v Hs Hd)|].
  split; [simpl; apply lookup_insert_eq|].
  split; [apply bytes_in_range; rewrite withField_length by assumption; lia|].
  fold (acField (withField d (Sector.encodeAC (acField d) i v))).
  rewrite acField_withField by assumption.
  apply encodeAC_redundant; assumption.
Qed.

Lemma clearAC_bval c i :
  0 <= c < 2 ^ 24 -> 0 <= i <= 3 ->
  Sector.clearAC c i = bval (BAnd BVar (BConst (Sector.MASK i))) c.
Proof.
  intros Hc Hi. unfold Sector.clearAC, JS.and.
  rewrite (ToInt32_small c) by lia.
  rewrite ToInt32_small; [reflexivity|].
  block_cases i; vm_compute; intuition congruence.
Qed.

(** C3, amended: ANDing a 24-bit field with [Sector.MASK[i]] clears the
    three bits block [i] owns (12+i, 0+i, 4+i) and the twelve bits of the
    complement nibbles (8..11 and 16..23), and leaves every other bit, the
    real bits of the other three blocks, as it was. *)
Theorem MASK_clears (c i k : Z) :
  0 <= c < 2 ^ 24 -> 0 <= i <= 3 -> 0 <= k < 24 ->
  Z.testbit (Sector.clearAC c i) k =
  if owned i k || complement_bit k then false else Z.testbit c k.
Proof.
  intros Hc Hi Hk. rewrite clearAC_bval, bbit_ok by assumption.
  generalize (Z.testbit c). intros f.
  block_cases i; bit_cases k; vm_compute;
    repeat match goal with |- context [f ?n] => destruct (f n) end;
    reflexivity.
Qed.

(** C3 as stated fails: bit 8 is not owned by block 0, and the mask of
    block 0 changes it. *)
Lemma MASK_clears_complement_bit :
  0 <= 0xFFFFFF < 2 ^ 24 /\
  owned 0 8 = false /\
  Z.testbit 0xFFFFFF 8 = true /\
  Z.testbit (Sector.clearAC 0xFFFFFF 0) 8 = false.
Proof. repeat split; vm_compute; congruence. Qed.

Lemma below_spec n P x :
  below n P = true -> 0 <= x < Z.of_nat n -> P x = true.
Proof.
  induction n as [|n IH]; intros H Hx; [lia|].
  simpl in H. apply andb_prop in H as [H1 H2].
  destruct (Z.eq_dec x (Z.of_nat n)) as [-> | Hne]; [assumption|].
  apply IH; [assumption | lia].
Qed.

Lemma is_byte_spec x : is_byte x = true <-> 0 <= x < 256.
Proof. unfold is_byte. lia. Qed.

Lemma crc8_round_byte x :
  0 <= x < 256 ->
  Mifare.crc8_round x = crc8_spec_round x /\ 0 <= Mifare.crc8_round x < 256.
Proof.
  intros Hx.
  pose (P := fun x => (Mifare.crc8_round x =? crc8_spec_round x) &&
                      is_byte (Mifare.crc8_round x)).
  assert (H : P x = true)
    by (apply (below_spec 256 P x); [vm_compute; reflexivity | exact Hx]).
  apply andb_prop in H as [H1 H2].
  apply Z.eqb_eq in H1. apply is_byte_spec in H2. auto.
Qed.

Lemma testbit_above x n m :
  0 <= n -> 0 <= x < 2 ^ n -> n <= m -> Z.testbit x m = false.
Proof.
  intros Hn Hx Hm. rewrite <- (Z.mod_small x (2 ^ n)) by assumption.
  apply Z.mod_pow2_bits_high. lia.
Qed.

Lemma lxor_below x y n :
  0 <= n -> 0 <= x < 2 ^ n -> 0 <= y < 2 ^ n -> 0 <= Z.lxor x y < 2 ^ n.
Proof.
  intros Hn Hx Hy.
  assert (E : Z.lxor x y = Z.lxor x y mod 2 ^ n).
  { apply Z.bits_inj'. intros m Hm.
    destruct (Z.lt_ge_cases m n) as [Hlt | Hge].
    - rewrite Z.mod_pow2_bits_low by assumption. reflexivity.
    - rewrite Z.mod_pow2_bits_high by lia.
      rewrite Z.lxor_spec, (testbit_above x n m), (testbit_above y n m) by assumption.
      reflexivity. }
  rewrite E. apply Z.mod_pos_bound. apply Z.pow_pos_nonneg; lia.
Qed.

Lemma xor_byte x y :
  0 <= x < 256 -> 0 <= y < 256 ->
  JS.xor x y = Z.lxor x y /\ 0 <= JS.xor x y < 256.
Proof.
  intros Hx Hy. unfold JS.xor. rewrite !ToInt32_small by lia.
  split; [reflexivity|]. apply (lxor_below x y 8); lia.
Qed.

Lemma crc8_rounds_byte n x :
  0 <= x < 256 ->
  Mifare.crc8_rounds n x = Nat.iter n crc8_spec_round x /\
  0 <= Mifare.crc8_rounds n x < 256.
Proof.
  revert x. induction n as [|n IH]; intros x Hx.
  - simpl. auto.
  - destruct (crc8_round_byte x Hx) as [E B].
    change (Mifare.crc8_rounds (S n) x)
      with (Mifare.crc8_rounds n (Mifare.crc8_round x)).
    destruct (IH _ B) as [E' B']. split; [|exact B'].
    rewrite E', E. symmetry. apply Nat.iter_succ_r.
Qed.

Lemma crc8_loop_S data i k crc :
  Mifare.crc8_loop data i (S k) crc =
  Mifare.crc8_loop data (S i) k
    (Mifare.crc8_rounds 8 (JS.xor crc (ByteStr.byteAt data i))).
Proof. cbv beta iota delta [Mifare.crc8_loop]. reflexivity. Qed.

Lemma byteAt_lookup (data : ByteString) i b :
  data !! i = Some b -> ByteStr.byteAt data i = byteZ b.
Proof. intros H. unfold ByteStr.byteAt. rewrite H. reflexivity. Qed.

Lemma crc8_loop_fold data i k crc :
  (i + k = length data)%nat -> 0 <= crc < 256 ->
  Mifare.crc8_loop data i k crc = fold_left crc8_spec_byte (drop i data) crc /\
  0 <= Mifare.crc8_loop data i k crc < 256.
Proof.
  revert i crc. induction k as [|k IH]; intros i crc Hik Hcrc.
  - rewrite drop_ge by lia. split; [reflexivity | exact Hcrc].
  - assert (Hi : (i < length data)%nat) by lia.
    destruct (lookup_lt_is_Some_2 data i Hi) as [b Hb].
    rewrite (drop_S data b i Hb), crc8_loop_S, (byteAt_lookup data i b Hb).
    destruct (xor_byte crc (byteZ b) Hcrc (byteZ_range b)) as [Ex Bx].
    destruct (crc8_rounds_byte 8 (JS.xor crc (byteZ b)) Bx) as [Er Br].
    assert (Hik' : (S i + k = length data)%nat) by lia.
    destruct (IH (S i) (Mifare.crc8_rounds 8 (JS.xor crc (byteZ b))) Hik' Br)
      as [E B].
    split; [|exact B].
    rewrite E, Er, Ex.
    change (fold_left crc8_spec_byte (b :: drop (S i) data) crc)
      with (fold_left crc8_spec_byte (drop (S i) data) (crc8_spec_byte crc b)).
    reflexivity.
Qed.

(** C4: [Mifare.crc8] computes the checksum of the specification, its
    result is a byte, and the 31-byte reference vector gives 0x89. *)
Theorem crc8_correct :
  (forall data, Mifare.crc8 data = crc8_spec data) /\
  (forall data, 0 <= Mifare.crc8 data <= 255) /\
  length crc8_ref = 31%nat /\
  Mifare.crc8 crc8_ref = 0x89.
Proof.
  split; [|split; [|split]].
  - intros data. unfold Mifare.crc8, crc8_spec.
    destruct (crc8_loop_fold data 0 (length data) 0xC7) as [E _]; [lia | lia |].
    exact E.
  - intros data.
    destruct (crc8_loop_fold data 0 (length data) 0xC7) as [_ B]; [lia | lia |].
    unfold Mifare.crc8. lia.
  - reflexivity.
  - vm_compute. reflexivity.
Qed.

Lemma overwrites_splice (d new : ByteString) lo hi :
  (lo <= hi <= length d)%nat -> length new = (hi - lo)%nat ->
  overwrites d (take lo d ++ new ++ drop hi d) new lo hi.
Proof.
  intros Hr Hn. unfold overwrites.
  assert (Hl : length (take lo d) = lo) by (rewrite length_take; lia).
  split; [|split].
  - rewrite !length_app, Hl, length_drop, Hn. lia.
  - intros k Hk.
    rewrite lookup_app_r by lia. rewrite Hl.
    rewrite lookup_app_l by lia. reflexivity.
  - intros k [Hk | Hk].
    + rewrite lookup_app_l by lia. apply lookup_take_lt. lia.
    + rewrite lookup_app_r by lia. rewrite lookup_app_r by lia.
      rewrite Hl, Hn, lookup_drop. f_equal. lia.
Qed.

(** C9: on a cached 16-byte trailer, [setKeyA] with a 6-byte key
    overwrites bytes 0..5 and nothing else, [setKeyB] with a 6-byte key
    bytes 10..15 and nothing else, [setHeaderDataByte] with one byte byte 9
    and nothing else; the trailer stays 16 bytes long. *)
Theorem key_helpers_overwrite (s : Sector.t) (d : ByteString) :
  Sector.blocks s !! 3 = Some d -> length d = 16%nat ->
  (forall key, length key = 6%nat ->
     exists s' d', Sector.setKeyA s key = Ok s' /\
       Sector.blocks s' !! 3 = Some d' /\ overwrites d d' key 0 6) /\
  (forall key, length key = 6%nat ->
     exists s' d', Sector.setKeyB s key = Ok s' /\
       Sector.blocks s' !! 3 = Some d' /\ overwrites d d' key 10 16) /\
  (forall db, length db = 1%nat ->
     exists s' d', Sector.setHeaderDataByte s db = Ok s' /\
       Sector.blocks s' !! 3 = Some d' /\ overwrites d d' db 9 10).
Proof.
  intros Hs Hd. split; [|split].
  - intros key Hk. unfold Sector.setKeyA, Sector.trailer. rewrite Hs. simpl.
    rewrite bytes_from_in_range by lia. simpl.
    eexists _, _. split; [reflexivity|]. split; [apply lookup_insert_eq|].
    apply (overwrites_splice d key 0 6); lia.
  - intros key Hk. unfold Sector.setKeyB, Sector.trailer. rewrite Hs. simpl.
    rewrite bytes_in_range by lia. simpl.
    eexists _, _. split; [reflexivity|]. split; [apply lookup_insert_eq|].
    pose proof (overwrites_splice d key 10 16 ltac:(lia) ltac:(lia)) as H.
    rewrite (drop_ge d 16), app_nil_r in H by lia. exact H.
  - intros db Hk. unfold Sector.setHeaderDataByte, Sector.trailer. rewrite Hs. simpl.
    rewrite bytes_in_range by lia. rewrite bytes_from_in_range by lia. simpl.
    eexists _, _. split; [reflexivity|]. split; [apply lookup_insert_eq|].
    unfold ByteStr.concat. rewrite <- app_assoc.
    apply (overwrites_splice d db 9 10); lia.
Qed.

Lemma byteZ_Zbyte_small z : 0 <= z < 256 -> byteZ (Zbyte z) = z.
Proof. intros H. rewrite byteZ_Zbyte. apply Z.mod_small. exact H. Qed.

Lemma shl_2 n : 0 <= n < 2 ^ 29 -> JS.shl n 2 = 4 * n.
Proof.
  intros Hn. unfold JS.shl. change (2 mod 32) with 2.
  rewrite (ToInt32_small n) by lia.
  rewrite Z.shiftl_mul_pow2 by lia. change (2 ^ 2) with 4.
  rewrite ToInt32_small by lia. lia.
Qed.

Lemma shr_8 a : 0 <= a < 2 ^ 31 -> JS.shr a 8 = a / 256.
Proof.
  intros Ha. unfold JS.shr. change (8 mod 32) with 8.
  rewrite ToInt32_small by lia. rewrite Z.shiftr_div_pow2 by lia. reflexivity.
Qed.

Lemma and_FF a : 0 <= a < 2 ^ 31 -> JS.and a 0xFF = a mod 256.
Proof.
  intros Ha. unfold JS.and. rewrite !ToInt32_small by lia.
  change 0xFF with (Z.ones 8). rewrite Z.land_ones by lia. reflexivity.
Qed.

Lemma PUBLICKEYS_lengths : Forall (fun key => length key = 6%nat) Mifare.PUBLICKEYS.
Proof. repeat constructor. Qed.

(** ** Further properties of the codec, the checksum and the display *)

Lemma b2z_bits_range (b2 b1 b0 : bool) :
  0 <= 4 * Z.b2z b2 + 2 * Z.b2z b1 + Z.b2z b0 <= 7.
Proof. destruct b2, b1, b0; simpl; lia. Qed.

(** X1: [getACforBlock] returns one of the eight access conditions. *)
Theorem getACforBlock_range (s : Sector.t) (d : ByteString) (block : Z) :
  Sector.blocks s !! 3 = Some d -> length d = 16%nat -> 0 <= block <= 3 ->
  exists v, Sector.getACforBlock s block = Ok v /\ 0 <= v <= 7.
Proof.
  intros Hs Hd Hb. eexists. split; [apply (getACforBlock_trailer s d block Hs Hd)|].
  rewrite decodeAC_bits by assumption. apply b2z_bits_range.
Qed.

Lemma low_bits_mod8 v :
  4 * Z.b2z (Z.testbit v 2) + 2 * Z.b2z (Z.testbit v 1) + Z.b2z (Z.testbit v 0)
  = v mod 8.
Proof.
  rewrite !Z.testbit_spec' by lia.
  change (2 ^ 2) with 4. change (2 ^ 1) with 2. change (2 ^ 0) with 1.
  rewrite Z.div_1_r.
  Z.div_mod_to_equations. lia.
Qed.

(** X2: only the three low bits of the access condition are stored. *)
Theorem setACforBlock_truncates (s : Sector.t) (d : ByteString) (i ac : Z) :
  Sector.blocks s !! 3 = Some d -> length d = 16%nat -> 0 <= i <= 3 ->
  exists s',
    Sector.setACforBlock s i ac = Ok s' /\
    Sector.getACforBlock s' i = Ok (ac mod 8).
Proof.
  intros Hs Hd Hi.
  pose proof (acField_range d Hd) as Hc.
  destruct (encodeAC_bval (acField d) i ac Hc Hi) as [_ Hc'].
  eexists. split; [apply (setACforBlock_trailer s d i ac Hs Hd)|].
  set (d' := withField d (Sector.encodeAC (acField d) i ac)).
  assert (Hs' : Sector.blocks (Sector.set_blocks s (<[3 := d']> (Sector.blocks s))) !! 3
                = Some d') by (simpl; apply lookup_insert_eq).
  assert (Hd' : length d' = 16%nat) by (apply withField_length; assumption).
  rewrite (getACforBlock_trailer _ d' i Hs' Hd').
  unfold d'. rewrite acField_withField by assumption.
  rewrite decodeAC_bits by assumption.
  rewrite !encodeAC_testbit by lia.
  destruct (enc_bit_own (Z.testbit (acField d)) i (Z.testbit ac 2) (Z.testbit ac 1)
              (Z.testbit ac 0) Hi) as (-> & -> & ->).
  rewrite low_bits_mod8. reflexivity.
Qed.

Lemma withField_overwrites d c :
  length d = 16%nat -> overwrites d (withField d c) (ByteStr.valueOf c 3) 6 9.
Proof.
  intros Hd. unfold withField.
  apply (overwrites_splice d (ByteStr.valueOf c 3) 6 9); [lia|].
  apply valueOf_length.
Qed.

(** X3: for a block index in 0..3, [setACforBlock] touches bytes 6..8 of
    the trailer only. *)
Theorem setACforBlock_frame (s : Sector.t) (d : ByteString) (block ac : Z) :
  Sector.blocks s !! 3 = Some d -> length d = 16%nat -> 0 <= block <= 3 ->
  exists s' d',
    Sector.setACforBlock s block ac = Ok s' /\
    Sector.blocks s' !! 3 = Some d' /\
    length d' = 16%nat /\
    (forall k, (k < 6 \/ 9 <= k)%nat -> d' !! k = d !! k) /\
    (forall b, b <> 3 -> Sector.blocks s' !! b = Sector.blocks s !! b) /\
    Sector.no s' = Sector.no s /\ Sector.keyid s' = Sector.keyid s.
Proof.
  intros Hs Hd Hb. eexists _, _.
  split; [apply (setACforBlock_trailer s d block ac Hs Hd)|].
  split; [simpl; apply lookup_insert_eq|].
  destruct (withField_overwrites d (Sector.encodeAC (acField d) block ac) Hd)
    as (Hl & _ & Hout).
  split; [rewrite Hl; exact Hd|]. split; [exact Hout|].
  split; [|split; reflexivity].
  intros b Hne. simpl. apply lookup_insert_ne. congruence.
Qed.

Lemma MASK_out_of_range block : block < 0 \/ 3 < block -> Sector.MASK block = 0.
Proof.
  intros H. unfold Sector.MASK. destruct (Z.ltb_spec block 0); [reflexivity|].
  apply nth_overflow. simpl. lia.
Qed.

Lemma clearAC_out_of_range c block :
  block < 0 \/ 3 < block -> Sector.clearAC c block = 0.
Proof.
  intros H. unfold Sector.clearAC, JS.and. rewrite MASK_out_of_range by assumption.
  apply Z.land_0_r.
Qed.

Lemma encodeAC_from_zero_range block ac :
  4 <= block <= 11 -> 0 <= Sector.encodeAC 0 block ac < 2 ^ 24.
Proof.
  intros Hb. unfold Sector.encodeAC. rewrite clearAC_out_of_range by lia.
  unfold Sector.insertAC. rewrite !shr_and_1, and_1 by lia.
  assert (E : block = 4 \/ block = 5 \/ block = 6 \/ block = 7 \/ block = 8 \/
              block = 9 \/ block = 10 \/ block = 11) by lia.
  destruct (Z.testbit ac 2), (Z.testbit ac 1), (Z.testbit ac 0);
    repeat (destruct E as [-> | E]; [vm_compute; split; congruence|]);
    subst block; vm_compute; split; congruence.
Qed.

(** X4: no bounds check on the block index: for an index in 4..11 the call
    succeeds, and what it writes does not depend on the field it read. *)
Theorem setACforBlock_out_of_range (s : Sector.t) (d : ByteString) (block ac : Z) :
  Sector.blocks s !! 3 = Some d -> length d = 16%nat ->
  4 <= block <= 11 ->
  Sector.clearAC (acField d) block = 0 /\
  0 <= Sector.encodeAC 0 block ac < 2 ^ 24 /\
  exists s' d' f,
    Sector.setACforBlock s block ac = Ok s' /\
    Sector.blocks s' !! 3 = Some d' /\
    ByteStr.bytes d' 6 3 = Ok f /\
    ByteStr.toUnsigned f = Sector.encodeAC 0 block ac.
Proof.
  intros Hs Hd Hb.
  pose proof (encodeAC_from_zero_range block ac Hb) as Hr.
  split; [apply clearAC_out_of_range; lia|]. split; [exact Hr|].
  assert (E : Sector.encodeAC (acField d) block ac = Sector.encodeAC 0 block ac)
    by (unfold Sector.encodeAC; rewrite !clearAC_out_of_range by lia; reflexivity).
  eexists _, _, _. split; [apply (setACforBlock_trailer s d block ac Hs Hd)|].
  split; [simpl; apply lookup_insert_eq|].
  split; [apply bytes_in_range; rewrite withField_length by assumption; lia|].
  fold (acField (withField d (Sector.encodeAC (acField d) block ac))).
  rewrite E. apply acField_withField; assumption.
Qed.

(** X5: the codec and the key helpers need the trailer in the cache. *)
Theorem trailer_helpers_need_cache (s : Sector.t) :
  Sector.blocks s !! 3 = None ->
  (forall block, Sector.getACforBlock s block = Err TypeError) /\
  (forall block ac, Sector.setACforBlock s block ac = Err TypeError) /\
  (forall key, Sector.setKeyA s key = Err TypeError) /\
  (forall key, Sector.setKeyB s key = Err TypeError) /\
  (forall db, Sector.setHeaderDataByte s db = Err TypeError).
Proof.
  intros Hs.
  unfold Sector.getACforBlock, Sector.setACforBlock, Sector.setKeyA, Sector.setKeyB,
    Sector.setHeaderDataByte, Sector.trailer.
  rewrite Hs. repeat split.
Qed.

Lemma eq_of_bits24 x y :
  0 <= x < 2 ^ 24 -> 0 <= y < 2 ^ 24 ->
  (forall k, 0 <= k < 24 -> Z.testbit x k = Z.testbit y k) -> x = y.
Proof.
  intros Hx Hy H. apply Z.bits_inj'. intros k Hk.
  destruct (Z.lt_ge_cases k 24) as [Hlt | Hge].
  - apply H. lia.
  - rewrite (testbit_above x 24 k), (testbit_above y 24 k) by lia. reflexivity.
Qed.

Lemma enc_bit_ext f g i b2 b1 b0 k :
  0 <= i <= 3 -> 0 <= k < 24 ->
  (forall n, 0 <= n < 24 -> f n = g n) ->
  enc_bit f i b2 b1 b0 k = enc_bit g i b2 b1 b0 k.
Proof.
  intros Hi Hk H. block_cases i; bit_cases k; vm_compute;
    repeat match goal with
           | |- context [f ?n] => rewrite (H n) by lia; destruct (g n)
           end; reflexivity.
Qed.

Lemma enc_bit_again f i b2 b1 b0 c2 c1 c0 k :
  0 <= i <= 3 -> 0 <= k < 24 ->
  enc_bit (enc_bit f i b2 b1 b0) i c2 c1 c0 k = enc_bit f i c2 c1 c0 k.
Proof.
  intros Hi Hk. block_cases i; bit_cases k; vm_compute; reflexivity.
Qed.

Lemma enc_bit_swap f i j b2 b1 b0 c2 c1 c0 k :
  0 <= i <= 3 -> 0 <= j <= 3 -> i <> j -> 0 <= k < 24 ->
  enc_bit (enc_bit f i b2 b1 b0) j c2 c1 c0 k =
  enc_bit (enc_bit f j c2 c1 c0) i b2 b1 b0 k.
Proof.
  intros Hi Hj Hne Hk. block_cases i; block_cases j; try congruence;
    bit_cases k; vm_compute; reflexivity.
Qed.

Lemma encodeAC_range c i ac :
  0 <= c < 2 ^ 24 -> 0 <= i <= 3 -> 0 <= Sector.encodeAC c i ac < 2 ^ 24.
Proof. intros Hc Hi. apply (encodeAC_bval c i ac Hc Hi). Qed.

Lemma encodeAC_again c i v u :
  0 <= c < 2 ^ 24 -> 0 <= i <= 3 ->
  Sector.encodeAC (Sector.encodeAC c i v) i u = Sector.encodeAC c i u.
Proof.
  intros Hc Hi.
  pose proof (encodeAC_range c i v Hc Hi) as H1.
  apply eq_of_bits24; try (apply encodeAC_range; assumption).
  intros k Hk. rewrite !encodeAC_testbit by assumption.
  rewrite <- (enc_bit_again (Z.testbit c) i (Z.testbit v 2) (Z.testbit v 1)
                (Z.testbit v 0)) by assumption.
  apply enc_bit_ext; try assumption.
  intros n Hn. apply encodeAC_testbit; assumption.
Qed.

Lemma encodeAC_swap c i j v u :
  0 <= c < 2 ^ 24 -> 0 <= i <= 3 -> 0 <= j <= 3 -> i <> j ->
  Sector.encodeAC (Sector.encodeAC c i v) j u =
  Sector.encodeAC (Sector.encodeAC c j u) i v.
Proof.
  intros Hc Hi Hj Hne.
  pose proof (encodeAC_range c i v Hc Hi) as H1.
  pose proof (encodeAC_range c j u Hc Hj) as H2.
  apply eq_of_bits24; try (apply encodeAC_range; assumption).
  intros k Hk. rewrite (encodeAC_testbit (Sector.encodeAC c i v)) by assumption.
  rewrite (encodeAC_testbit (Sector.encodeAC c j u)) by assumption.
  rewrite (enc_bit_ext (Z.testbit (Sector.encodeAC c i v))
             (enc_bit (Z.testbit c) i (Z.testbit v 2) (Z.testbit v 1) (Z.testbit v 0)))
    by (try assumption; intros n Hn; apply encodeAC_testbit; assumption).
  rewrite (enc_bit_ext (Z.testbit (Sector.encodeAC c j u))
             (enc_bit (Z.testbit c) j (Z.testbit u 2) (Z.testbit u 1) (Z.testbit u 0)))
    by (try assumption; intros n Hn; apply encodeAC_testbit; assumption).
  apply enc_bit_swap; assumption.
Qed.

Lemma withField_withField d c c' :
  length d = 16%nat -> withField (withField d c) c' = withField d c'.
Proof.
  intros Hd. unfold withField. rewrite !drop_0.
  assert (H6 : length (take 6 d) = 6%nat) by (rewrite length_take, Hd; reflexivity).
  rewrite take_app_length' by (symmetry; exact H6).
  f_equal. f_equal.
  rewrite drop_app_ge by (rewrite H6; lia). rewrite H6.
  rewrite drop_app_ge by (rewrite valueOf_length; lia).
  rewrite valueOf_length, drop_drop. reflexivity.
Qed.

Lemma set_twice (s : Sector.t) (d : ByteString) i v j u :
  Sector.blocks s !! 3 = Some d -> length d = 16%nat ->
  0 <= i <= 3 ->
  rbind (Sector.setACforBlock s i v) (fun s' => Sector.setACforBlock s' j u) =
  Ok (Sector.set_blocks s
        (<[3 := withField d
                  (Sector.encodeAC (Sector.encodeAC (acField d) i v) j u)]>
           (Sector.blocks s))).
Proof.
  intros Hs Hd Hi.
  rewrite (setACforBlock_trailer s d i v Hs Hd). cbn [rbind].
  set (d1 := withField d (Sector.encodeAC (acField d) i v)).
  rewrite (setACforBlock_trailer _ d1 j u);
    [| simpl; apply lookup_insert_eq | apply withField_length; assumption].
  unfold d1. rewrite acField_withField, withField_withField;
    [| assumption | assumption | apply encodeAC_range; [apply acField_range|]; assumption].
  unfold Sector.set_blocks. cbn [Sector.no Sector.blocks Sector.keyid].
  rewrite insert_insert_eq. reflexivity.
Qed.

(** X6: the last access condition written for a block is the one kept. *)
Theorem setACforBlock_overwrites (s : Sector.t) (d : ByteString) (i v u : Z) :
  Sector.blocks s !! 3 = Some d -> length d = 16%nat -> 0 <= i <= 3 ->
  rbind (Sector.setACforBlock s i v) (fun s' => Sector.setACforBlock s' i u) =
  Sector.setACforBlock s i u.
Proof.
  intros Hs Hd Hi. rewrite (set_twice s d i v i u Hs Hd Hi).
  rewrite encodeAC_again by (try assumption; apply acField_range; assumption).
  symmetry. apply setACforBlock_trailer; assumption.
Qed.

(** X7: access conditions of different blocks can be set in either order. *)
Theorem setACforBlock_commutes (s : Sector.t) (d : ByteString) (i j v u : Z) :
  Sector.blocks s !! 3 = Some d -> length d = 16%nat ->
  0 <= i <= 3 -> 0 <= j <= 3 -> i <> j ->
  rbind (Sector.setACforBlock s i v) (fun s' => Sector.setACforBlock s' j u) =
  rbind (Sector.setACforBlock s j u) (fun s' => Sector.setACforBlock s' i v).
Proof.
  intros Hs Hd Hi Hj Hne.
  rewrite (set_twice s d i v j u Hs Hd Hi), (set_twice s d j u i v Hs Hd Hj).
  rewrite encodeAC_swap by (try assumption; apply acField_range; assumption).
  reflexivity.
Qed.

Lemma Zbyte_byteZ b : Zbyte (byteZ b) = b.
Proof.
  unfold Zbyte. rewrite Z.mod_small by apply byteZ_range.
  unfold byteZ. rewrite N2Z.id, Byte.of_to_N. reflexivity.
Qed.

Lemma Zbyte_shift x b : Zbyte (x * 256 + byteZ b) = b.
Proof.
  rewrite <- (Zbyte_byteZ b) at 2. unfold Zbyte.
  rewrite Z.add_comm, Z.mod_add by lia. reflexivity.
Qed.

Lemma valueOf_toUnsigned l : ByteStr.valueOf (ByteStr.toUnsigned l) (length l) = l.
Proof.
  induction l as [|b l IH] using rev_ind; [reflexivity|].
  rewrite toUnsigned_snoc, length_app, Nat.add_1_r. cbn [length ByteStr.valueOf].
  rewrite Zbyte_shift. f_equal.
  rewrite Z.div_add_l by lia.
  rewrite (Z.div_small (byteZ b)) by apply byteZ_range.
  rewrite Z.add_0_r. exact IH.
Qed.

Lemma withField_acField d : length d = 16%nat -> withField d (acField d) = d.
Proof.
  intros Hd. unfold withField, acField. rewrite drop_0.
  assert (H3 : length (take 3 (drop 6 d)) = 3%nat)
    by (rewrite length_take, length_drop, Hd; reflexivity).
  pose proof (valueOf_toUnsigned (take 3 (drop 6 d))) as E.
  rewrite H3 in E. rewrite E.
  replace (drop 9 d) with (drop 3 (drop 6 d)) by (rewrite drop_drop; reflexivity).
  rewrite take_drop. apply take_drop.
Qed.

Lemma redundant_bits c :
  redundant c ->
  (forall k, 16 <= k < 20 -> Z.testbit c k = negb (Z.testbit c (k - 4))) /\
  (forall k, 20 <= k < 24 -> Z.testbit c k = negb (Z.testbit c (k - 20))) /\
  (forall k, 8 <= k < 12 -> Z.testbit c k = negb (Z.testbit c (k - 4))).
Proof.
  intros (H4 & H5 & H2).
  assert (M : forall hi lo, 0 <= hi -> 0 <= lo ->
            nibble c hi = Z.land (Z.lnot (nibble c lo)) 0xF ->
            forall n, 0 <= n < 4 ->
              Z.testbit c (n + 4 * hi) = negb (Z.testbit c (n + 4 * lo))).
  { intros hi lo Hhi Hlo E n Hn.
    assert (B : Z.testbit (nibble c hi) n =
                Z.testbit (Z.land (Z.lnot (nibble c lo)) 0xF) n) by (rewrite E; reflexivity).
    rewrite testbit_compl_nibble, !testbit_nibble in B by lia.
    destruct (Z.ltb_spec n 4); [|lia].
    rewrite !andb_true_r in B. exact B. }
  split; [|split]; intros k Hk.
  - replace k with ((k - 16) + 4 * 4) at 1 by lia.
    rewrite (M 4 3 ltac:(lia) ltac:(lia) H4) by lia. do 2 f_equal. lia.
  - replace k with ((k - 20) + 4 * 5) at 1 by lia.
    rewrite (M 5 0 ltac:(lia) ltac:(lia) H5) by lia. do 2 f_equal. lia.
  - replace k with ((k - 8) + 4 * 2) at 1 by lia.
    rewrite (M 2 1 ltac:(lia) ltac:(lia) H2) by lia. do 2 f_equal. lia.
Qed.

Lemma bits_of_ac (b2 b1 b0 : bool) :
  Z.testbit (4 * Z.b2z b2 + 2 * Z.b2z b1 + Z.b2z b0) 2 = b2 /\
  Z.testbit (4 * Z.b2z b2 + 2 * Z.b2z b1 + Z.b2z b0) 1 = b1 /\
  Z.testbit (4 * Z.b2z b2 + 2 * Z.b2z b1 + Z.b2z b0) 0 = b0.
Proof. destruct b2, b1, b0; repeat split. Qed.

Lemma enc_bit_same f i k :
  0 <= i <= 3 -> 0 <= k < 24 ->
  (forall k, 16 <= k < 20 -> f k = negb (f (k - 4))) ->
  (forall k, 20 <= k < 24 -> f k = negb (f (k - 20))) ->
  (forall k, 8 <= k < 12 -> f k = negb (f (k - 4))) ->
  enc_bit f i (f (12 + i)) (f (0 + i)) (f (4 + i)) k = f k.
Proof.
  intros Hi Hk H16 H20 H8. block_cases i; bit_cases k;
    unfold enc_bit, real_bit; simpl;
    first [ reflexivity
          | symmetry; apply H16; lia
          | symmetry; apply H20; lia
          | symmetry; apply H8; lia ].
Qed.

Lemma encodeAC_decodeAC c i :
  0 <= c < 2 ^ 24 -> 0 <= i <= 3 -> redundant c ->
  Sector.encodeAC c i (Sector.decodeAC c i) = c.
Proof.
  intros Hc Hi Hr. destruct (redundant_bits c Hr) as (H16 & H20 & H8).
  apply eq_of_bits24; [apply encodeAC_range; assumption | assumption |].
  intros k Hk. rewrite encodeAC_testbit by assumption.
  rewrite decodeAC_bits by assumption.
  destruct (bits_of_ac (Z.testbit c (12 + i)) (Z.testbit c (0 + i))
              (Z.testbit c (4 + i))) as (-> & -> & ->).
  apply enc_bit_same; assumption.
Qed.

(** X8: writing back the access condition just read changes nothing in a
    trailer whose field is well formed. *)
Theorem setACforBlock_of_getACforBlock (s : Sector.t) (d : ByteString) (i v : Z) :
  Sector.blocks s !! 3 = Some d -> length d = 16%nat -> 0 <= i <= 3 ->
  redundant (acField d) ->
  Sector.getACforBlock s i = Ok v ->
  Sector.setACforBlock s i v = Ok s.
Proof.
  intros Hs Hd Hi Hr Hg.
  rewrite (getACforBlock_trailer s d i Hs Hd) in Hg. inversion Hg; subst v.
  rewrite (setACforBlock_trailer s d i _ Hs Hd).
  rewrite encodeAC_decodeAC by (try assumption; apply acField_range; assumption).
  rewrite withField_acField by assumption.
  rewrite insert_id by assumption.
  destruct s; reflexivity.
Qed.

Lemma crc8_is_fold data :
  Mifare.crc8 data = fold_left crc8_spec_byte data 0xC7 /\
  0 <= Mifare.crc8 data < 256.
Proof. apply (crc8_loop_fold data 0 (length data) 0xC7); lia. Qed.

Lemma fold_crc8_range data crc :
  0 <= crc < 256 -> 0 <= fold_left crc8_spec_byte data crc < 256.
Proof.
  revert crc. induction data as [|b data IH]; intros crc Hc; [exact Hc|].
  cbn [fold_left]. apply IH. unfold crc8_spec_byte.
  destruct (xor_byte crc (byteZ b) Hc (byteZ_range b)) as [Ex Bx].
  rewrite Ex in Bx.
  destruct (crc8_rounds_byte 8 _ Bx) as [Er Br]. rewrite <- Er. exact Br.
Qed.

Lemma rounds_injective x y :
  0 <= x < 256 -> 0 <= y < 256 ->
  Nat.iter 8 crc8_spec_round x = Nat.iter 8 crc8_spec_round y -> x = y.
Proof.
  intros Hx Hy E.
  assert (H : rounds_injective_on x = true)
    by (apply (below_spec 256 rounds_injective_on x);
        [vm_compute; reflexivity | exact Hx]).
  unfold rounds_injective_on in H.
  apply (below_spec 256 _ y) in H; [|exact Hy].
  rewrite E, Z.eqb_refl in H. simpl in H. apply Z.eqb_eq. exact H.
Qed.

Lemma byteZ_inj b b' : byteZ b = byteZ b' -> b = b'.
Proof. intros E. rewrite <- (Zbyte_byteZ b), <- (Zbyte_byteZ b'), E. reflexivity. Qed.

Lemma crc8_spec_byte_inj_byte crc b b' :
  0 <= crc < 256 -> crc8_spec_byte crc b = crc8_spec_byte crc b' -> b = b'.
Proof.
  intros Hc E. unfold crc8_spec_byte in E.
  destruct (xor_byte crc (byteZ b) Hc (byteZ_range b)) as [Ex Bx].
  destruct (xor_byte crc (byteZ b') Hc (byteZ_range b')) as [Ex' Bx'].
  rewrite Ex in Bx. rewrite Ex' in Bx'.
  apply rounds_injective in E; [|assumption|assumption].
  apply byteZ_inj.
  apply (f_equal (Z.lxor crc)) in E.
  rewrite <- !Z.lxor_assoc, Z.lxor_nilpotent, !Z.lxor_0_l in E. exact E.
Qed.

Lemma crc8_spec_byte_inj_crc crc crc' b :
  0 <= crc < 256 -> 0 <= crc' < 256 ->
  crc8_spec_byte crc b = crc8_spec_byte crc' b -> crc = crc'.
Proof.
  intros Hc Hc' E. unfold crc8_spec_byte in E.
  destruct (xor_byte crc (byteZ b) Hc (byteZ_range b)) as [Ex Bx].
  destruct (xor_byte crc' (byteZ b) Hc' (byteZ_range b)) as [Ex' Bx'].
  rewrite Ex in Bx. rewrite Ex' in Bx'.
  apply rounds_injective in E; [|assumption|assumption].
  apply (f_equal (fun z => Z.lxor z (byteZ b))) in E.
  rewrite !Z.lxor_assoc, Z.lxor_nilpotent, !Z.lxor_0_r in E. exact E.
Qed.

Lemma fold_crc8_inj data crc crc' :
  0 <= crc < 256 -> 0 <= crc' < 256 ->
  fold_left crc8_spec_byte data crc = fold_left crc8_spec_byte data crc' ->
  crc = crc'.
Proof.
  revert crc crc'. induction data as [|b data IH]; intros crc crc' Hc Hc' E.
  - exact E.
  - cbn [fold_left] in E.
    apply IH in E; try (apply (fold_crc8_range [b]); assumption).
    apply (crc8_spec_byte_inj_crc crc crc' b Hc Hc' E).
Qed.

(** X9: a change of one byte always changes the checksum. *)
Theorem crc8_detects_byte_error (d1 d2 : ByteString) (b b' : byte) :
  b <> b' -> Mifare.crc8 (d1 ++ b :: d2) <> Mifare.crc8 (d1 ++ b' :: d2).
Proof.
  intros Hne E.
  destruct (crc8_is_fold (d1 ++ b :: d2)) as [E1 _].
  destruct (crc8_is_fold (d1 ++ b' :: d2)) as [E2 _].
  rewrite E1, E2, !fold_left_app in E. cbn [fold_left] in E.
  assert (Hc : 0 <= fold_left crc8_spec_byte d1 0xC7 < 256)
    by (apply fold_crc8_range; lia).
  apply fold_crc8_inj in E; try (apply (fold_crc8_range [_]); assumption).
  apply crc8_spec_byte_inj_byte in E; [contradiction | assumption].
Qed.

(** X10: a message followed by its own checksum has checksum 0. *)
Theorem crc8_residue (data : ByteString) :
  Mifare.crc8 (data ++ [Zbyte (Mifare.crc8 data)]) = 0.
Proof.
  destruct (crc8_is_fold data) as [E B].
  destruct (crc8_is_fold (data ++ [Zbyte (Mifare.crc8 data)])) as [E' _].
  rewrite E', fold_left_app. cbn [fold_left]. rewrite <- E.
  unfold crc8_spec_byte. rewrite byteZ_Zbyte_small by exact B.
  rewrite Z.lxor_nilpotent. vm_compute. reflexivity.
Qed.

Lemma string_length_snoc str ch :
  String.length (String.append str (String.String ch String.EmptyString)) =
  S (String.length str).
Proof. induction str as [|a str IH]; simpl; [reflexivity | rewrite IH; reflexivity]. Qed.

Lemma string_get_snoc str ch :
  String.get (String.length str)
    (String.append str (String.String ch String.EmptyString)) = Some ch.
Proof.
  pose proof (String.append_correct2 str (String.String ch String.EmptyString) 0) as H.
  simpl in H. symmetry. exact H.
Qed.

Lemma toASCII_loop_S data i k str b :
  data !! i = Some b ->
  Sector.toASCII_loop data i (S k) str =
  Sector.toASCII_loop data (S i) k
    (String.append str (String.String (shown b) String.EmptyString)).
Proof.
  intros Hb. cbn [Sector.toASCII_loop]. rewrite (byteAt_lookup data i b Hb).
  unfold shown. destruct ((0x20 <=? byteZ b) && (byteZ b <? 0x7F)); reflexivity.
Qed.

Lemma toASCII_loop_spec data k : forall i str,
  (i + k = length data)%nat ->
  String.length (Sector.toASCII_loop data i k str) = (String.length str + k)%nat /\
  (forall j, (j < String.length str)%nat ->
     String.get j (Sector.toASCII_loop data i k str) = String.get j str) /\
  (forall j b, (i <= j)%nat -> data !! j = Some b ->
     String.get (String.length str + (j - i)) (Sector.toASCII_loop data i k str)
     = Some (shown b)).
Proof.
  induction k as [|k IH]; intros i str Hik.
  - simpl. split; [lia|]. split; [reflexivity|].
    intros j b Hj Hb. apply lookup_lt_Some in Hb. lia.
  - assert (Hi : (i < length data)%nat) by lia.
    destruct (lookup_lt_is_Some_2 data i Hi) as [b Hb].
    rewrite (toASCII_loop_S data i k str b Hb).
    set (str' := String.append str (String.String (shown b) String.EmptyString)).
    assert (Hl : String.length str' = S (String.length str))
      by apply string_length_snoc.
    destruct (IH (S i) str' ltac:(lia)) as (Hlen & Hold & Hnew).
    split; [rewrite Hlen, Hl; lia|]. split.
    + intros j Hj. rewrite Hold by lia. unfold str'.
      symmetry. apply String.append_correct1. exact Hj.
    + intros j b' Hj Hb'. destruct (Nat.eq_dec j i) as [-> | Hne].
      * rewrite Hb in Hb'. inversion Hb'; subst b'.
        rewrite Nat.sub_diag, Nat.add_0_r. rewrite Hold by lia.
        apply string_get_snoc.
      * replace (String.length str + (j - i))%nat
          with (String.length str' + (j - S i))%nat by lia.
        apply Hnew; [lia | exact Hb'].
Qed.

(** X11: [toASCII] shows one character per byte: the byte itself when it is
    printable, a dot otherwise. *)
Theorem toASCII_chars (data : ByteString) :
  String.length (Sector.toASCII data) = length data /\
  (forall i b, data !! i = Some b ->
     String.get i (Sector.toASCII data) =
     Some (if (0x20 <=? byteZ b) && (byteZ b <? 0x7F)
           then Ascii.ascii_of_N (Byte.to_N b) else Sector.dot)) /\
  (forall i ch, String.get i (Sector.toASCII data) = Some ch ->
     (0x20 <= Ascii.N_of_ascii ch <= 0x7E)%N).
Proof.
  destruct (toASCII_loop_spec data (length data) 0 String.EmptyString eq_refl)
    as (Hlen & _ & Hget).
  fold (Sector.toASCII data) in Hlen, Hget. simpl in Hlen.
  assert (Hshown : forall i b, data !! i = Some b ->
            String.get i (Sector.toASCII data) = Some (shown b)).
  { intros i b Hb. specialize (Hget i b ltac:(lia) Hb).
    simpl in Hget. rewrite Nat.sub_0_r in Hget. exact Hget. }
  split; [exact Hlen|]. split.
  - intros i b Hb. rewrite (Hshown i b Hb). unfold shown, Sector.fromCharCode, byteZ.
    rewrite N2Z.id. reflexivity.
  - intros i ch Hch.
    assert (Hi : (i < length data)%nat).
    { destruct (Nat.lt_ge_cases i (length data)) as [H | H]; [exact H|].
      rewrite <- Hlen in H.
      exfalso. revert Hch H. generalize (Sector.toASCII data). clear.
      intros str. revert i. induction str as [|a str IH]; intros i Hch H.
      - destruct i; discriminate.
      - destruct i as [|i]; [simpl in H; lia|]. simpl in Hch, H.
        apply (IH i Hch). lia. }
    destruct (lookup_lt_is_Some_2 data i Hi) as [b Hb].
    rewrite (Hshown i b Hb) in Hch. inversion Hch; subst ch.
    unfold shown, Sector.fromCharCode, Sector.dot.
    destruct (Z.leb_spec 0x20 (byteZ b)); destruct (Z.ltb_spec (byteZ b) 0x7F);
      cbn [andb]; try (rewrite Ascii.N_ascii_embedding; lia).
Qed.

(** ** The card session and the sector operations, over any card *)

Section SessionFacts.

Context {CardState : Type}.
Variable transmit : CardState -> Apdu -> CardState * (ByteString * Z).

Lemma sendApdu_checked w a :
  Mifare.sendApdu transmit a (Some [0x9000]) w =
  (if ex_sw (exchange transmit w a (Some [0x9000])) =? 0x9000
   then Ok (ex_resp (exchange transmit w a (Some [0x9000])))
   else Err GPError,
   after transmit w a (Some [0x9000])).
Proof.
  unfold Mifare.sendApdu, after, exchange.
  destruct (transmit (card_state w) a) as [st [resp sw]]. simpl.
  rewrite orb_false_r. destruct (sw =? 0x9000); reflexivity.
Qed.

Lemma sendApdu_unchecked w a :
  Mifare.sendApdu transmit a None w =
  (Ok (ex_resp (exchange transmit w a None)), after transmit w a None).
Proof.
  unfold Mifare.sendApdu, after, exchange.
  destruct (transmit (card_state w) a) as [st [resp sw]]. reflexivity.
Qed.

Lemma plays_one (w : World CardState) a expect :
  plays transmit w [exchange transmit w a expect] (after transmit w a expect).
Proof. split; reflexivity. Qed.

Lemma plays_cons (w w' : World CardState) a expect es :
  plays transmit (after transmit w a expect) es w' ->
  plays transmit w (exchange transmit w a expect :: es) w'.
Proof. intros H. split; [reflexivity | exact H]. Qed.

Lemma plays_log es : forall (w w' : World CardState),
  plays transmit w es w' -> log w' = log w ++ es.
Proof.
  induction es as [|e es IH]; intros w w' H.
  - simpl in H. subst w'. rewrite app_nil_r. reflexivity.
  - destruct H as [He H]. rewrite (IH _ _ H). unfold after. cbn [log].
    rewrite <- He, <- app_assoc. reflexivity.
Qed.

Lemma plays_unique (w w' : World CardState) es es' :
  plays transmit w es w' -> log w' = log w ++ es' -> es = es'.
Proof.
  intros H E. rewrite (plays_log es w w' H) in E.
  apply app_inv_head in E. exact E.
Qed.

(** C7: [loadKey] with a 6-byte key sends exactly one Load Key command,
    with the key id as P2 and the key as data, requiring status word 0x9000;
    P1 is 0x00 (preset slot) if and only if the key id is 0x60 or 0x61, and
    0x20 (standard) for every other key id. *)
Theorem loadKey_variant (keyid : Z) (key : ByteString) (w : World CardState) :
  length key = 6%nat ->
  let r := Mifare.loadKey transmit (Some keyid) key w in
  exists e,
    log (snd r) = log w ++ [e] /\
    (card_state (snd r), (ex_resp e, ex_sw e)) =
      transmit (card_state w) (ex_apdu e) /\
    cla (ex_apdu e) = 0xFF /\ ins (ex_apdu e) = 0x82 /\
    p2 (ex_apdu e) = keyid /\ body (ex_apdu e) = Data key /\
    (p1 (ex_apdu e) = 0x00 <-> keyid = 0x60 \/ keyid = 0x61) /\
    (p1 (ex_apdu e) = 0x20 <-> ~ (keyid = 0x60 \/ keyid = 0x61)) /\
    ex_expect e = Some [0x9000] /\
    (ex_sw e = 0x9000 -> fst r = Ok tt) /\
    (ex_sw e <> 0x9000 -> fst r = Err GPError).
Proof.
  intros Hk r. subst r. unfold Mifare.loadKey, bind, assert.
  rewrite Hk. simpl.
  destruct (Z.eqb_spec keyid 0x60) as [E60 | N60];
    [| destruct (Z.eqb_spec keyid 0x61) as [E61 | N61]]; simpl;
    rewrite sendApdu_checked;
    match goal with
    | |- context [exchange transmit w ?a ?x] =>
        exists (exchange transmit w a x);
        destruct (Z.eqb_spec (ex_sw (exchange transmit w a x)) 0x9000) as [Es | Ns]
    end;
    simpl;
    (repeat split; try reflexivity; try tauto; try lia; try congruence;
     try (destruct (transmit (card_state w) _) as [st [resp sw]]; reflexivity)).
Qed.

Lemma authenticate_run block keytype keyid (w : World CardState) :
  Mifare.authenticate transmit block keytype keyid w =
  (Ok (ex_sw (exchange transmit w (authApdu block keytype keyid) None) =? 0x9000),
   after transmit w (authApdu block keytype keyid) None).
Proof.
  unfold Mifare.authenticate, bind, Mifare.getSW, ret, authApdu, idByte.
  destruct (Z.eqb_spec keyid 0x60) as [E60 | N60];
    [| destruct (Z.eqb_spec keyid 0x61) as [E61 | N61]];
    cbv beta iota delta [negb andb orb]; rewrite sendApdu_unchecked; reflexivity.
Qed.

(** C8: [Mifare.authenticate] sends one General Authenticate command whose
    payload has five bytes: 0x01, the block address on two bytes big endian,
    the key type, and the key id, replaced with 0x01 when it is 0x60 or
    0x61.  No status word is required: the call always returns, with [true]
    exactly when the status word is 0x9000. *)
Theorem authenticate_payload (block keytype keyid : Z) (w : World CardState) :
  0 <= block < 65536 -> 0 <= keytype < 256 -> 0 <= keyid < 256 ->
  let r := Mifare.authenticate transmit block keytype keyid w in
  exists e payload,
    log (snd r) = log w ++ [e] /\
    (card_state (snd r), (ex_resp e, ex_sw e)) =
      transmit (card_state w) (ex_apdu e) /\
    ex_apdu e = mkApdu 0xFF 0x86 0x00 0x00 (Data payload) /\
    ex_expect e = None /\
    length payload = 5%nat /\
    byteZ <$> payload !! 0%nat = Some 0x01 /\
    ByteStr.toUnsigned (take 2 (drop 1 payload)) = block /\
    byteZ <$> payload !! 3%nat = Some keytype /\
    byteZ <$> payload !! 4%nat =
      Some (if (keyid =? 0x60) || (keyid =? 0x61) then 0x01 else keyid) /\
    SW (snd r) = ex_sw e /\
    fst r = Ok (ex_sw e =? 0x9000).
Proof.
  intros Hb Hk Hi r. subst r. rewrite authenticate_run.
  eexists _, _. split; [reflexivity|].
  split; [simpl; destruct (transmit (card_state w) _) as [st [resp sw]]; reflexivity|].
  split; [reflexivity|]. split; [reflexivity|].
  split; [reflexivity|].
  split; [reflexivity|].
  split.
  { change (ByteStr.toUnsigned (ByteStr.valueOf block 2) = block).
    apply toUnsigned_valueOf. change (256 ^ Z.of_nat 2) with 65536. exact Hb. }
  split.
  { change (Some (byteZ (Zbyte keytype)) = Some keytype).
    rewrite byteZ_Zbyte_small by assumption. reflexivity. }
  split.
  { change (Some (byteZ (Zbyte (idByte keyid))) = Some (idByte keyid)).
    rewrite byteZ_Zbyte_small; [reflexivity|].
    unfold idByte. destruct ((keyid =? 0x60) || (keyid =? 0x61)); lia. }
  split; reflexivity.
Qed.

Lemma readBlock_run addr (w : World CardState) :
  0 <= addr < 2 ^ 31 ->
  Mifare.readBlock transmit addr w =
  (if ex_sw (exchange transmit w (readApdu addr) (Some [0x9000])) =? 0x9000
   then Ok (ex_resp (exchange transmit w (readApdu addr) (Some [0x9000])))
   else Err GPError,
   after transmit w (readApdu addr) (Some [0x9000])).
Proof.
  intros Ha. unfold Mifare.readBlock. rewrite shr_8, and_FF by assumption.
  apply sendApdu_checked.
Qed.

Lemma read_run i (s : Sector.t) (w : World CardState) :
  0 <= i <= 3 -> 0 <= Sector.no s < 2 ^ 29 ->
  Sector.read transmit i (s, w) =
  let e := exchange transmit w (readApdu (4 * Sector.no s + i)) (Some [0x9000]) in
  let w' := after transmit w (readApdu (4 * Sector.no s + i)) (Some [0x9000]) in
  if ex_sw e =? 0x9000
  then (Ok (ex_resp e),
        (Sector.set_blocks s (<[i := ex_resp e]> (Sector.blocks s)), w'))
  else (Err GPError, (s, w')).
Proof.
  intros Hi Hn. unfold Sector.read, bind, assert, Sector.this, Sector.card,
    Sector.setBlock, ret.
  destruct (Z.leb_spec 0 i); [|lia]. destruct (Z.leb_spec i 3); [|lia].
  cbv beta iota zeta. cbn [fst snd].
  rewrite shl_2 by assumption.
  rewrite readBlock_run by lia.
  destruct (ex_sw _ =? 0x9000); reflexivity.
Qed.

Lemma readAll_loop_S n i bb (s : Sector.t) (w : World CardState) :
  0 <= i <= 3 -> 0 <= Sector.no s < 2 ^ 29 ->
  Sector.readAll_loop transmit i (S n) bb (s, w) =
  let e := exchange transmit w (readApdu (4 * Sector.no s + i)) (Some [0x9000]) in
  let w' := after transmit w (readApdu (4 * Sector.no s + i)) (Some [0x9000]) in
  if ex_sw e =? 0x9000
  then Sector.readAll_loop transmit (i + 1) n (bb ++ ex_resp e)
         (Sector.set_blocks s (<[i := ex_resp e]> (Sector.blocks s)), w')
  else (Err GPError, (s, w')).
Proof.
  intros Hi Hn. cbn [Sector.readAll_loop]. unfold bind.
  rewrite read_run by assumption. cbv zeta.
  destruct (ex_sw _ =? 0x9000); reflexivity.
Qed.

Lemma readAll_loop_run n : forall i bb (s : Sector.t) (w : World CardState),
  0 <= i -> i + Z.of_nat n <= 4 -> 0 <= Sector.no s < 2 ^ 29 ->
  exists rs,
    log (snd (snd (Sector.readAll_loop transmit i n bb (s, w)))) = log w ++ rs /\
    (length rs <= n)%nat /\
    (forall j e, rs !! j = Some e ->
       ex_apdu e = readApdu (4 * Sector.no s + (i + Z.of_nat j)) /\
       ex_expect e = Some [0x9000]) /\
    match fst (Sector.readAll_loop transmit i n bb (s, w)) with
    | Ok out =>
        length rs = n /\ Forall accepted rs /\ out = bb ++ concat (ex_resp <$> rs)
    | Err x =>
        x = GPError /\
        exists rs' e, rs = rs' ++ [e] /\ Forall accepted rs' /\ ~ accepted e
    end.
Proof.
  induction n as [|n IH]; intros i bb s w Hi Hin Hno.
  - exists []. simpl. rewrite !app_nil_r.
    split; [reflexivity|]. split; [lia|]. split.
    + intros j e H. rewrite lookup_nil in H. discriminate.
    + split; [reflexivity|]. split; [constructor | reflexivity].
  - rewrite readAll_loop_S by lia. cbv zeta.
    set (e := exchange transmit w (readApdu (4 * Sector.no s + i)) (Some [0x9000])).
    set (w1 := after transmit w (readApdu (4 * Sector.no s + i)) (Some [0x9000])).
    destruct (Z.eqb_spec (ex_sw e) 0x9000) as [Hacc | Hrej].
    + set (s1 := Sector.set_blocks s (<[i := ex_resp e]> (Sector.blocks s))).
      destruct (IH (i + 1) (bb ++ ex_resp e) s1 w1 ltac:(lia) ltac:(lia) Hno)
        as (rs & Hlog & Hlen & Hcmd & Hres).
      exists (e :: rs). split; [|split; [|split]].
      * rewrite Hlog. unfold w1, after. cbn [log]. rewrite <- app_assoc. reflexivity.
      * simpl. lia.
      * intros [|j] e' Hj.
        -- inversion Hj; subst e'. rewrite Z.add_0_r. split; reflexivity.
        -- destruct (Hcmd j e' Hj) as [Ha He]. split; [|exact He].
           rewrite Ha. change (Sector.no s1) with (Sector.no s). f_equal. lia.
      * destruct (fst (Sector.readAll_loop transmit (i + 1) n (bb ++ ex_resp e) (s1, w1)))
          as [out | x].
        -- destruct Hres as (Hn & Hall & Hout). split; [simpl; lia|].
           split; [constructor; assumption|].
           rewrite Hout. simpl. rewrite app_assoc. reflexivity.
        -- destruct Hres as (Hx & rs' & e' & Hrs & Hall & Hlast). split; [exact Hx|].
           exists (e :: rs'), e'. rewrite Hrs. split; [reflexivity|].
           split; [constructor; assumption | exact Hlast].
    + exists [e]. split; [reflexivity|]. split; [simpl; lia|]. split.
      * intros [|j] e' Hj; [|simpl in Hj; rewrite lookup_nil in Hj; discriminate].
        inversion Hj; subst e'. rewrite Z.add_0_r. split; reflexivity.
      * cbn [fst]. split; [reflexivity|].
        exists [], e. split; [reflexivity|]. split; [constructor | exact Hrej].
Qed.

Lemma readAll_loop_plays n : forall i bb (s : Sector.t) (w : World CardState),
  0 <= i -> i + Z.of_nat n <= 4 -> 0 <= Sector.no s < 2 ^ 29 ->
  exists rs,
    plays transmit w rs (snd (snd (Sector.readAll_loop transmit i n bb (s, w)))).
Proof.
  induction n as [|n IH]; intros i bb s w Hi Hin Hno.
  - exists []. reflexivity.
  - rewrite readAll_loop_S by lia. cbv zeta.
    set (a := readApdu (4 * Sector.no s + i)).
    destruct (ex_sw (exchange transmit w a (Some [0x9000])) =? 0x9000).
    + destruct (IH (i + 1) (bb ++ ex_resp (exchange transmit w a (Some [0x9000])))
                  (Sector.set_blocks s
                     (<[i := ex_resp (exchange transmit w a (Some [0x9000]))]>
                        (Sector.blocks s)))
                  (after transmit w a (Some [0x9000]))
                  ltac:(lia) ltac:(lia) Hno) as (rs & Hplays).
      exists (exchange transmit w a (Some [0x9000]) :: rs).
      apply plays_cons. exact Hplays.
    + exists [exchange transmit w a (Some [0x9000])]. apply plays_one.
Qed.

Lemma Sector_authenticate_run block keytype kid (s : Sector.t) (w : World CardState) :
  0 <= Sector.no s < 2 ^ 29 ->
  Sector.keyid s !! (keytype - Mifare.KEY_A) = Some kid ->
  Sector.authenticate transmit block keytype (s, w) =
  (Ok (ex_sw (exchange transmit w
                (authApdu (4 * Sector.no s + block) keytype kid) None) =? 0x9000),
   (s, after transmit w (authApdu (4 * Sector.no s + block) keytype kid) None)).
Proof.
  intros Hn Hk. unfold Sector.authenticate, bind, Sector.this. cbn [fst snd].
  rewrite Hk. unfold Sector.card. cbn [fst snd].
  rewrite authenticate_run, shl_2 by assumption. reflexivity.
Qed.


(** C6, amended: [readAll] sends to the card one authentication, against
    block [4 * no + 0] with the key type given (Key A when omitted), and
    then Read Binary commands for the blocks [4 * no + 0], [4 * no + 1], ...
    in that order and nothing else, each only if the card answered 0x9000 to
    the one before.  When the card answers 0x9000 to all four it returns the
    four responses concatenated in that order; otherwise it fails with the
    transport's error at the first read the card answers otherwise. *)
Theorem readAll_exchanges (keytype : option Z) (kid : Z)
    (s : Sector.t) (w : World CardState) :
  0 <= Sector.no s < 2 ^ 29 ->
  Sector.keyid s !! (default Mifare.KEY_A keytype - Mifare.KEY_A) = Some kid ->
  let r := Sector.readAll transmit keytype (s, w) in
  exists a rs,
    plays transmit w (a :: rs) (snd (snd r)) /\
    log (snd (snd r)) = log w ++ a :: rs /\
    ex_apdu a =
      authApdu (4 * Sector.no s + 0) (default Mifare.KEY_A keytype) kid /\
    ex_expect a = None /\
    (length rs <= 4)%nat /\
    (forall j e, rs !! j = Some e ->
       ex_apdu e = readApdu (4 * Sector.no s + Z.of_nat j) /\
       ex_expect e = Some [0x9000]) /\
    match fst r with
    | Ok out =>
        length rs = 4%nat /\ Forall accepted rs /\ out = concat (ex_resp <$> rs)
    | Err x =>
        x = GPError /\
        exists rs' e, rs = rs' ++ [e] /\ Forall accepted rs' /\ ~ accepted e
    end.
Proof.
  intros Hn Hk r. subst r. unfold Sector.readAll, bind.
  rewrite (Sector_authenticate_run 0 _ kid s w Hn Hk).
  set (cmd := authApdu (4 * Sector.no s + 0) (default Mifare.KEY_A keytype) kid).
  set (a := exchange transmit w cmd None). set (w1 := after transmit w cmd None).
  destruct (readAll_loop_run 4 0 [] s w1 ltac:(lia) ltac:(lia) Hn)
    as (rs & Hlog & Hlen & Hcmd & Hres).
  destruct (readAll_loop_plays 4 0 [] s w1 ltac:(lia) ltac:(lia) Hn)
    as (rs' & Hplays).
  assert (E : rs' = rs) by (apply (plays_unique w1 _ rs' rs Hplays Hlog)).
  subst rs'.
  exists a, rs. split; [|split; [|split; [|split; [|split; [|split]]]]].
  - apply plays_cons. exact Hplays.
  - rewrite Hlog. unfold w1, after. cbn [log]. rewrite <- app_assoc. reflexivity.
  - reflexivity.
  - reflexivity.
  - exact Hlen.
  - exact Hcmd.
  - exact Hres.
Qed.


Lemma loadKey_run kid key (w : World CardState) :
  length key = 6%nat ->
  Mifare.loadKey transmit (Some kid) key w =
  (if ex_sw (exchange transmit w (loadKeyApdu kid key) (Some [0x9000])) =? 0x9000
   then Ok tt else Err GPError,
   after transmit w (loadKeyApdu kid key) (Some [0x9000])).
Proof.
  intros Hk. unfold Mifare.loadKey, bind, assert, loadKeyApdu. rewrite Hk.
  cbn [Nat.eqb ret].
  destruct ((kid =? 0x60) || (kid =? 0x61)); rewrite sendApdu_checked;
    destruct (ex_sw _ =? 0x9000); reflexivity.
Qed.

Lemma authenticatePublic_loop_S key keys i block keytype kid
    (s : Sector.t) (w : World CardState) :
  length key = 6%nat -> 0 <= Sector.no s < 2 ^ 29 ->
  Sector.keyid s !! (keytype - Mifare.KEY_A) = Some kid ->
  Sector.authenticatePublic_loop transmit (key :: keys) i block keytype (s, w) =
  let l := exchange transmit w (loadKeyApdu kid key) (Some [0x9000]) in
  let w1 := after transmit w (loadKeyApdu kid key) (Some [0x9000]) in
  let cmd := authApdu (4 * Sector.no s + block) keytype kid in
  if ex_sw l =? 0x9000
  then if ex_sw (exchange transmit w1 cmd None) =? 0x9000
       then (Ok i, (s, after transmit w1 cmd None))
       else Sector.authenticatePublic_loop transmit keys (i + 1) block keytype
              (s, after transmit w1 cmd None)
  else (Err GPError, (s, w1)).
Proof.
  intros Hk Hn Hs. cbn [Sector.authenticatePublic_loop].
  unfold bind at 1. unfold Sector.this at 1. cbn [fst snd].
  unfold bind at 1. unfold Sector.card at 1. cbn [fst snd].
  rewrite Hs, loadKey_run by assumption. cbv zeta.
  destruct (ex_sw _ =? 0x9000); [|reflexivity].
  unfold bind. rewrite (Sector_authenticate_run block keytype kid) by assumption.
  destruct (ex_sw _ =? 0x9000); reflexivity.
Qed.

Lemma authenticatePublic_loop_run keys block keytype kid :
  forall i (s : Sector.t) (w : World CardState),
  Forall (fun key => length key = 6%nat) keys ->
  0 <= Sector.no s < 2 ^ 29 ->
  Sector.keyid s !! (keytype - Mifare.KEY_A) = Some kid ->
  exists es failed,
    log (snd (snd (Sector.authenticatePublic_loop transmit keys i block keytype (s, w))))
      = log w ++ es /\
    Forall2 (probe_of kid (4 * Sector.no s + block) keytype)
            (take (length failed) keys) failed /\
    Forall (fun p => ~ accepted (snd p)) failed /\
    (length failed <= length keys)%nat /\
    match fst (Sector.authenticatePublic_loop transmit keys i block keytype (s, w)) with
    | Ok j =>
        (j = -1 /\ length failed = length keys /\ es = flatten failed) \/
        (exists key won,
            keys !! length failed = Some key /\
            j = i + Z.of_nat (length failed) /\
            probe_of kid (4 * Sector.no s + block) keytype key won /\
            accepted (snd won) /\
            es = flatten failed ++ [fst won; snd won])
    | Err x =>
        x = GPError /\
        exists key l,
          keys !! length failed = Some key /\
          ex_apdu l = loadKeyApdu kid key /\
          ex_expect l = Some [0x9000] /\
          ~ accepted l /\
          es = flatten failed ++ [l]
    end.
Proof.
  induction keys as [|key keys IH]; intros i s w Hkeys Hn Hs.
  - exists [], []. simpl. rewrite app_nil_r.
    split; [reflexivity|]. split; [constructor|]. split; [constructor|].
    split; [lia|]. left. auto.
  - inversion Hkeys as [|? ? Hk Hrest]; subst.
    rewrite (authenticatePublic_loop_S key keys i block keytype kid s w Hk Hn Hs).
    cbv zeta.
    set (l := exchange transmit w (loadKeyApdu kid key) (Some [0x9000])).
    set (w1 := after transmit w (loadKeyApdu kid key) (Some [0x9000])).
    set (cmd := authApdu (4 * Sector.no s + block) keytype kid).
    set (a := exchange transmit w1 cmd None).
    set (w2 := after transmit w1 cmd None).
    destruct (Z.eqb_spec (ex_sw l) 0x9000) as [Hl | Hl].
    + destruct (Z.eqb_spec (ex_sw a) 0x9000) as [Ha | Ha].
      * exists [l; a], []. cbn [fst snd].
        split; [unfold w2, w1, after; cbn [log]; rewrite <- app_assoc; reflexivity|].
        split; [constructor|]. split; [constructor|]. split; [simpl; lia|].
        right. exists key, (l, a).
        split; [reflexivity|]. split; [simpl; lia|].
        split; [repeat split; try reflexivity; exact Hl|].
        split; [exact Ha | reflexivity].
      * destruct (IH (i + 1) s w2 Hrest Hn Hs)
          as (es & failed & Hlog & Hprobes & Hfail & Hlen & Hres).
        exists (l :: a :: es), ((l, a) :: failed).
        split; [rewrite Hlog; unfold w2, w1, after; cbn [log];
                rewrite <- !app_assoc; reflexivity|].
        split; [simpl; constructor;
                [repeat split; try reflexivity; exact Hl | exact Hprobes]|].
        split; [constructor; [exact Ha | exact Hfail]|].
        split; [simpl; lia|].
        destruct (fst (Sector.authenticatePublic_loop transmit keys (i + 1) block
                         keytype (s, w2))) as [j | x].
        -- destruct Hres as [(Hj & Hall & Hes) | (k & won & Hk' & Hj & Hp & Hw & Hes)].
           ++ left. split; [exact Hj|]. split; [simpl; lia|].
              rewrite Hes. reflexivity.
           ++ right. exists k, won. split; [exact Hk'|].
              split; [simpl length; lia|]. split; [exact Hp|].
              split; [exact Hw|]. rewrite Hes. reflexivity.
        -- destruct Hres as (Hx & k & l' & Hk' & Hcmd & Hexp & Hrej & Hes).
           split; [exact Hx|]. exists k, l'. split; [exact Hk'|].
           split; [exact Hcmd|]. split; [exact Hexp|]. split; [exact Hrej|].
           rewrite Hes. reflexivity.
    + exists [l], []. cbn [fst snd].
      split; [reflexivity|]. split; [constructor|]. split; [constructor|].
      split; [simpl; lia|]. split; [reflexivity|].
      exists key, l. repeat split; try reflexivity. exact Hl.
Qed.

Lemma authenticatePublic_loop_plays keys block keytype kid :
  forall i (s : Sector.t) (w : World CardState),
  Forall (fun key => length key = 6%nat) keys ->
  0 <= Sector.no s < 2 ^ 29 ->
  Sector.keyid s !! (keytype - Mifare.KEY_A) = Some kid ->
  fst (snd (Sector.authenticatePublic_loop transmit keys i block keytype (s, w))) = s /\
  exists es,
    plays transmit w es
      (snd (snd (Sector.authenticatePublic_loop transmit keys i block keytype (s, w)))).
Proof.
  induction keys as [|key keys IH]; intros i s w Hkeys Hn Hs.
  - split; [reflexivity|]. exists []. reflexivity.
  - inversion Hkeys as [|? ? Hk Hrest]; subst.
    rewrite (authenticatePublic_loop_S key keys i block keytype kid s w Hk Hn Hs).
    cbv zeta.
    set (l := loadKeyApdu kid key).
    set (w1 := after transmit w l (Some [0x9000])).
    set (cmd := authApdu (4 * Sector.no s + block) keytype kid).
    destruct (ex_sw (exchange transmit w l (Some [0x9000])) =? 0x9000).
    + destruct (ex_sw (exchange transmit w1 cmd None) =? 0x9000).
      * split; [reflexivity|].
        exists [exchange transmit w l (Some [0x9000]); exchange transmit w1 cmd None].
        apply plays_cons. apply plays_one.
      * destruct (IH (i + 1) s (after transmit w1 cmd None) Hrest Hn Hs)
          as (Hsec & es & Hplays).
        split; [exact Hsec|].
        exists (exchange transmit w l (Some [0x9000])
                  :: exchange transmit w1 cmd None :: es).
        apply plays_cons. apply plays_cons. exact Hplays.
    + split; [reflexivity|].
      exists [exchange transmit w l (Some [0x9000])]. apply plays_one.
Qed.

(** C5, amended: for a key type the sector stores a key id for,
    [authenticatePublic] goes through the public key table in its order
    (FFFFFFFFFFFF, A0A1A2A3A4A5, B0B1B2B3B4B5, D3F7D3F7D3F7); each candidate
    is loaded into the reader under that key id, status word 0x9000 being
    required, and then tried.  The result is the index of the first
    candidate whose authentication the card accepts, nothing being sent
    after it, or -1 when all four were tried and refused.  When the reader
    answers a Load Key otherwise than with 0x9000, the call fails there with
    the transport's error: that candidate is not tried, nor any later one.
    The sector object is left as it was. *)
Theorem authenticatePublic_first_match (block keytype kid : Z)
    (s : Sector.t) (w : World CardState) :
  0 <= Sector.no s < 2 ^ 29 ->
  Sector.keyid s !! (keytype - Mifare.KEY_A) = Some kid ->
  let r := Sector.authenticatePublic transmit block keytype (s, w) in
  map (map byteZ) Mifare.PUBLICKEYS =
    [ [0xFF; 0xFF; 0xFF; 0xFF; 0xFF; 0xFF]; [0xA0; 0xA1; 0xA2; 0xA3; 0xA4; 0xA5];
      [0xB0; 0xB1; 0xB2; 0xB3; 0xB4; 0xB5]; [0xD3; 0xF7; 0xD3; 0xF7; 0xD3; 0xF7] ] /\
  fst (snd r) = s /\
  exists es failed,
    plays transmit w es (snd (snd r)) /\
    log (snd (snd r)) = log w ++ es /\
    Forall2 (probe_of kid (4 * Sector.no s + block) keytype)
            (take (length failed) Mifare.PUBLICKEYS) failed /\
    Forall (fun p => ~ accepted (snd p)) failed /\
    match fst r with
    | Ok j =>
        (j = -1 /\ length failed = 4%nat /\ es = flatten failed) \/
        (exists key won,
            Mifare.PUBLICKEYS !! length failed = Some key /\
            j = Z.of_nat (length failed) /\
            probe_of kid (4 * Sector.no s + block) keytype key won /\
            accepted (snd won) /\
            es = flatten failed ++ [fst won; snd won])
    | Err x =>
        x = GPError /\
        exists key l,
          Mifare.PUBLICKEYS !! length failed = Some key /\
          ex_apdu l = loadKeyApdu kid key /\
          ex_expect l = Some [0x9000] /\
          ~ accepted l /\
          es = flatten failed ++ [l]
    end.
Proof.
  intros Hn Hs r. subst r. split; [reflexivity|].
  unfold Sector.authenticatePublic.
  destruct (authenticatePublic_loop_plays Mifare.PUBLICKEYS block keytype kid 0 s w
              PUBLICKEYS_lengths Hn Hs) as (Hsec & es' & Hplays).
  split; [exact Hsec|].
  destruct (authenticatePublic_loop_run Mifare.PUBLICKEYS block keytype kid 0 s w
              PUBLICKEYS_lengths Hn Hs)
    as (es & failed & Hlog & Hprobes & Hfail & Hlen & Hres).
  assert (E : es' = es) by (apply (plays_unique w _ es' es Hplays Hlog)).
  subst es'.
  exists es, failed. split; [exact Hplays|]. split; [exact Hlog|].
  split; [exact Hprobes|]. split; [exact Hfail|].
  destruct (fst (Sector.authenticatePublic_loop transmit Mifare.PUBLICKEYS 0 block
                   keytype (s, w))) as [j | x]; exact Hres.
Qed.

(** *** Further properties of the sector operations *)

Lemma exchange_transmit (w : World CardState) a expect :
  (card_state (after transmit w a expect),
   (ex_resp (exchange transmit w a expect), ex_sw (exchange transmit w a expect)))
  = transmit (card_state w) a.
Proof.
  unfold after, exchange. simpl.
  destruct (transmit (card_state w) a) as [st [resp sw]]. reflexivity.
Qed.

(** X12: [read] sends one Read Binary, and caches what the card returns. *)
Theorem read_caches (i : Z) (s : Sector.t) (w : World CardState) :
  0 <= i <= 3 -> 0 <= Sector.no s < 2 ^ 29 ->
  let r := Sector.read transmit i (s, w) in
  let s' := fst (snd r) in
  exists e,
    log (snd (snd r)) = log w ++ [e] /\
    (card_state (snd (snd r)), (ex_resp e, ex_sw e)) =
      transmit (card_state w) (ex_apdu e) /\
    ex_apdu e = mkApdu 0xFF 0xB0 ((4 * Sector.no s + i) / 256)
                       ((4 * Sector.no s + i) mod 256) (Le 16) /\
    ex_expect e = Some [0x9000] /\
    (ex_sw e = 0x9000 ->
       fst r = Ok (ex_resp e) /\
       Sector.blocks s' !! i = Some (ex_resp e) /\
       (forall b, b <> i -> Sector.blocks s' !! b = Sector.blocks s !! b) /\
       Sector.keyid s' = Sector.keyid s /\ Sector.no s' = Sector.no s) /\
    (ex_sw e <> 0x9000 -> fst r = Err GPError /\ s' = s).
Proof.
  intros Hi Hn r s'. subst s' r. rewrite read_run by assumption. cbv zeta.
  set (a := readApdu (4 * Sector.no s + i)).
  exists (exchange transmit w a (Some [0x9000])).
  destruct (Z.eqb_spec (ex_sw (exchange transmit w a (Some [0x9000]))) 0x9000)
    as [Hacc | Hrej]; cbn [fst snd].
  - split; [reflexivity|]. split; [apply exchange_transmit|].
    split; [reflexivity|]. split; [reflexivity|]. split; [|intros; contradiction].
    intros _. split; [reflexivity|]. split; [apply lookup_insert_eq|].
    split; [|split; reflexivity].
    intros b Hb. simpl. apply lookup_insert_ne. congruence.
  - split; [reflexivity|]. split; [apply exchange_transmit|].
    split; [reflexivity|]. split; [reflexivity|]. split; [intros; contradiction|].
    intros _. split; reflexivity.
Qed.

(** X13: [read] asserts its block number before anything is sent. *)
Theorem read_out_of_range (i : Z) (s : Sector.t) (w : World CardState) :
  i < 0 \/ 3 < i ->
  Sector.read transmit i (s, w) = (Err AssertionError, (s, w)).
Proof.
  intros Hi. unfold Sector.read, bind, assert, ret, throw.
  destruct (Z.leb_spec 0 i); [|reflexivity].
  destruct (Z.leb_spec i 3); [lia | reflexivity].
Qed.

Lemma updateBlock_run addr data (w : World CardState) :
  0 <= addr < 2 ^ 31 -> length data = 16%nat ->
  Mifare.updateBlock transmit addr data w =
  let a := mkApdu 0xFF 0xD6 (addr / 256) (addr mod 256) (Data data) in
  (if ex_sw (exchange transmit w a (Some [0x9000])) =? 0x9000
   then Ok (ex_resp (exchange transmit w a (Some [0x9000])))
   else Err GPError,
   after transmit w a (Some [0x9000])).
Proof.
  intros Ha Hd. unfold Mifare.updateBlock, bind, assert. rewrite Hd.
  cbn [Nat.eqb ret]. rewrite shr_8, and_FF by assumption.
  apply sendApdu_checked.
Qed.

Lemma updateBlock_bad_length addr data (w : World CardState) :
  length data <> 16%nat ->
  Mifare.updateBlock transmit addr data w = (Err AssertionError, w).
Proof.
  intros Hd. unfold Mifare.updateBlock, bind, assert.
  destruct (Nat.eqb_spec (length data) 16); [contradiction | reflexivity].
Qed.

(** X14: [update] without data writes the cached block, and needs it. *)
Theorem update_cached (block : Z) (s : Sector.t) (w : World CardState) :
  0 <= block <= 3 -> 0 <= Sector.no s < 2 ^ 29 ->
  let r := Sector.update transmit block None (s, w) in
  match Sector.blocks s !! block with
  | None => r = (Err TypeError, (s, w))
  | Some d =>
      if (length d =? 16)%nat then
        exists e,
          log (snd (snd r)) = log w ++ [e] /\
          (card_state (snd (snd r)), (ex_resp e, ex_sw e)) =
            transmit (card_state w) (ex_apdu e) /\
          ex_apdu e = mkApdu 0xFF 0xD6 ((4 * Sector.no s + block) / 256)
                             ((4 * Sector.no s + block) mod 256) (Data d) /\
          ex_expect e = Some [0x9000] /\
          fst (snd r) = s /\
          (ex_sw e = 0x9000 -> fst r = Ok tt) /\
          (ex_sw e <> 0x9000 -> fst r = Err GPError)
      else r = (Err AssertionError, (s, w))
  end.
Proof.
  intros Hb Hn r. subst r.
  cbv [Sector.update bind Sector.this ret throw Sector.card fst snd].
  destruct (Sector.blocks s !! block) as [d|] eqn:Hd; [|reflexivity].
  rewrite shl_2 by assumption.
  destruct (Nat.eqb_spec (length d) 16) as [Hl | Hl].
  - rewrite updateBlock_run by (assumption || lia). cbv zeta.
    set (a := mkApdu 0xFF 0xD6 _ _ (Data d)).
    exists (exchange transmit w a (Some [0x9000])).
    destruct (Z.eqb_spec (ex_sw (exchange transmit w a (Some [0x9000]))) 0x9000)
      as [Hacc | Hrej]; cbn [fst snd];
      (split; [reflexivity|]; split; [apply exchange_transmit|];
       split; [reflexivity|]; split; [reflexivity|]; split; [reflexivity|];
       split; intros; try reflexivity; contradiction).
  - rewrite updateBlock_bad_length by assumption. reflexivity.
Qed.

(** X15: [update] with data caches the data first: the cache holds it
    whether the card accepts the write or not, and even when the data does
    not have 16 bytes and nothing is sent. *)
Theorem update_caches_first (block : Z) (data : ByteString)
    (s : Sector.t) (w : World CardState) :
  0 <= block <= 3 -> 0 <= Sector.no s < 2 ^ 29 ->
  let r := Sector.update transmit block (Some data) (s, w) in
  let s' := fst (snd r) in
  Sector.blocks s' !! block = Some data /\
  (forall b, b <> block -> Sector.blocks s' !! b = Sector.blocks s !! b) /\
  if (length data =? 16)%nat then
    exists e,
      log (snd (snd r)) = log w ++ [e] /\
      ex_apdu e = mkApdu 0xFF 0xD6 ((4 * Sector.no s + block) / 256)
                         ((4 * Sector.no s + block) mod 256) (Data data) /\
      ex_expect e = Some [0x9000] /\
      (ex_sw e = 0x9000 -> fst r = Ok tt) /\
      (ex_sw e <> 0x9000 -> fst r = Err GPError)
  else fst r = Err AssertionError /\ snd (snd r) = w.
Proof.
  intros Hb Hn r s'. subst s' r.
  cbv [Sector.update bind Sector.this ret throw Sector.card Sector.setBlock fst snd].
  rewrite shl_2 by assumption.
  destruct (Nat.eqb_spec (length data) 16) as [Hl | Hl].
  - rewrite updateBlock_run by (assumption || lia). cbv zeta.
    set (a := mkApdu 0xFF 0xD6 _ _ (Data data)).
    destruct (Z.eqb_spec (ex_sw (exchange transmit w a (Some [0x9000]))) 0x9000)
      as [Hacc | Hrej]; cbn [fst snd];
      (split; [apply lookup_insert_eq|];
       split; [intros b Hne; simpl; apply lookup_insert_ne; congruence|];
       exists (exchange transmit w a (Some [0x9000]));
       split; [reflexivity|]; split; [reflexivity|]; split; [reflexivity|];
       split; intros; try reflexivity; contradiction).
  - rewrite updateBlock_bad_length by assumption. cbn [fst snd].
    split; [apply lookup_insert_eq|].
    split; [intros b Hne; simpl; apply lookup_insert_ne; congruence|].
    split; reflexivity.
Qed.

(** X16: the sector's [authenticate] addresses the block within the sector
    and uses the key id stored for the key type. *)
Theorem Sector_authenticate_uses_keyid (block keytype kid : Z)
    (s : Sector.t) (w : World CardState) :
  0 <= Sector.no s < 2 ^ 29 ->
  Sector.keyid s !! (keytype - Mifare.KEY_A) = Some kid ->
  let r := Sector.authenticate transmit block keytype (s, w) in
  exists e,
    log (snd (snd r)) = log w ++ [e] /\
    (card_state (snd (snd r)), (ex_resp e, ex_sw e)) =
      transmit (card_state w) (ex_apdu e) /\
    ex_apdu e = authApdu (4 * Sector.no s + block) keytype kid /\
    ex_expect e = None /\
    fst r = Ok (ex_sw e =? 0x9000) /\
    fst (snd r) = s.
Proof.
  intros Hn Hk r. subst r.
  rewrite (Sector_authenticate_run block keytype kid s w Hn Hk).
  eexists. cbn [fst snd]. split; [reflexivity|].
  split; [apply exchange_transmit|]. repeat split.
Qed.

(** X17: [setKeyId] replaces the key id of one key type, Key A when the key
    type is omitted, and the next authentication with that key type uses
    it. *)
Theorem setKeyId_then_authenticate (kid : Z) (keytype : option Z) (block : Z)
    (s : Sector.t) (w : World CardState) :
  0 <= Sector.no s < 2 ^ 29 ->
  let kt := default Mifare.KEY_A keytype in
  let s' := Sector.setKeyId s kid keytype in
  let r := Sector.authenticate transmit block kt (s', w) in
  Sector.keyid s' !! (kt - Mifare.KEY_A) = Some kid /\
  (forall kt', kt' <> kt ->
     Sector.keyid s' !! (kt' - Mifare.KEY_A) = Sector.keyid s !! (kt' - Mifare.KEY_A)) /\
  Sector.blocks s' = Sector.blocks s /\ Sector.no s' = Sector.no s /\
  exists e,
    log (snd (snd r)) = log w ++ [e] /\
    ex_apdu e = authApdu (4 * Sector.no s + block) kt kid /\
    fst r = Ok (ex_sw e =? 0x9000).
Proof.
  intros Hn kt s' r.
  assert (Hk : Sector.keyid s' !! (kt - Mifare.KEY_A) = Some kid)
    by (apply lookup_insert_eq).
  split; [exact Hk|]. split.
  { intros kt' Hne. simpl. apply lookup_insert_ne. lia. }
  split; [reflexivity|]. split; [reflexivity|].
  subst r. rewrite (Sector_authenticate_run block kt kid s' w Hn Hk).
  eexists. cbn [fst snd]. repeat split.
Qed.



(** X19: without a key id for the key type, [authenticatePublic] fails on
    the assertion of [loadKey] and sends nothing. *)
Theorem authenticatePublic_without_keyid (block keytype : Z)
    (s : Sector.t) (w : World CardState) :
  Sector.keyid s !! (keytype - Mifare.KEY_A) = None ->
  Sector.authenticatePublic transmit block keytype (s, w) =
  (Err AssertionError, (s, w)).
Proof.
  intros Hk. unfold Sector.authenticatePublic, Mifare.PUBLICKEYS.
  cbn [Sector.authenticatePublic_loop].
  cbv [bind Sector.this Sector.card fst snd]. rewrite Hk. reflexivity.
Qed.

Lemma authenticate_keeps_sector block keytype (s : Sector.t) (w : World CardState) :
  fst (snd (Sector.authenticate transmit block keytype (s, w))) = s.
Proof.
  cbv [Sector.authenticate bind Sector.this Sector.card throw fst snd].
  destruct (Sector.keyid s !! (keytype - Mifare.KEY_A)); [|reflexivity].
  destruct (Mifare.authenticate _ _ _ _ _) as [r w']. reflexivity.
Qed.

(** X20: [authenticatePublic] never changes the sector object. *)
Theorem authenticatePublic_keeps_sector (block keytype : Z)
    (s : Sector.t) (w : World CardState) :
  fst (snd (Sector.authenticatePublic transmit block keytype (s, w))) = s.
Proof.
  unfold Sector.authenticatePublic. generalize 0 at 1. revert w.
  induction Mifare.PUBLICKEYS as [|key keys IH]; intros w i; [reflexivity|].
  cbn [Sector.authenticatePublic_loop].
  unfold bind at 1. unfold Sector.this at 1. cbn [fst snd].
  unfold bind at 1. unfold Sector.card at 1. cbn [fst snd].
  destruct (Mifare.loadKey transmit _ key w) as [[u | x] w1]; [|reflexivity].
  unfold bind.
  pose proof (authenticate_keeps_sector block keytype s w1) as Hs.
  destruct (Sector.authenticate transmit block keytype (s, w1)) as [[ok | x] [s2 w2]].
  - cbn [fst snd] in Hs. subst s2. destruct ok; [reflexivity | apply IH].
  - exact Hs.
Qed.

End SessionFacts.

(** ** The theorems at sample values *)

Lemma setACforBlock_getACforBlock_witness :
  exists s',
    Sector.setACforBlock s0 1 6 = Ok s' /\
    Sector.getACforBlock s' 1 = Ok 6 /\
    forall j, 0 <= j <= 3 -> j <> 1 ->
      Sector.getACforBlock s' j = Sector.getACforBlock s0 j.
Proof.
  apply (setACforBlock_getACforBlock s0 tr0 1 6);
    [vm_compute; reflexivity | reflexivity | lia | lia].
Defined.

Lemma setACforBlock_redundancy_witness :
  exists s' d' f,
    Sector.setACforBlock s0 2 5 = Ok s' /\
    Sector.blocks s' !! 3 = Some d' /\
    ByteStr.bytes d' 6 3 = Ok f /\
    redundant (ByteStr.toUnsigned f).
Proof.
  apply (setACforBlock_redundancy s0 tr0 2 5);
    [vm_compute; reflexivity | reflexivity | lia].
Defined.

Lemma MASK_clears_witness :
  Z.testbit (Sector.clearAC 0xFFFFFF 0) 8 =
  if owned 0 8 || complement_bit 8 then false else Z.testbit 0xFFFFFF 8.
Proof. apply (MASK_clears 0xFFFFFF 0 8); lia. Defined.

Lemma key_helpers_overwrite_witness :
  (forall key, length key = 6%nat ->
     exists s' d', Sector.setKeyA s0 key = Ok s' /\
       Sector.blocks s' !! 3 = Some d' /\ overwrites tr0 d' key 0 6) /\
  (forall key, length key = 6%nat ->
     exists s' d', Sector.setKeyB s0 key = Ok s' /\
       Sector.blocks s' !! 3 = Some d' /\ overwrites tr0 d' key 10 16) /\
  (forall db, length db = 1%nat ->
     exists s' d', Sector.setHeaderDataByte s0 db = Ok s' /\
       Sector.blocks s' !! 3 = Some d' /\ overwrites tr0 d' db 9 10).
Proof.
  apply (key_helpers_overwrite s0 tr0); [vm_compute; reflexivity | reflexivity].
Defined.

Lemma loadKey_variant_witness :
  let r := Mifare.loadKey cardOk (Some 0x60) key0 w0 in
  exists e,
    log (snd r) = log w0 ++ [e] /\
    (card_state (snd r), (ex_resp e, ex_sw e)) =
      cardOk (card_state w0) (ex_apdu e) /\
    cla (ex_apdu e) = 0xFF /\ ins (ex_apdu e) = 0x82 /\
    p2 (ex_apdu e) = 0x60 /\ body (ex_apdu e) = Data key0 /\
    (p1 (ex_apdu e) = 0x00 <-> 0x60 = 0x60 \/ 0x60 = 0x61) /\
    (p1 (ex_apdu e) = 0x20 <-> ~ (0x60 = 0x60 \/ 0x60 = 0x61)) /\
    ex_expect e = Some [0x9000] /\
    (ex_sw e = 0x9000 -> fst r = Ok tt) /\
    (ex_sw e <> 0x9000 -> fst r = Err GPError).
Proof. apply (loadKey_variant cardOk 0x60 key0 w0). reflexivity. Defined.

Lemma authenticate_payload_witness :
  let r := Mifare.authenticate cardOk 7 0x61 0x60 w0 in
  exists e payload,
    log (snd r) = log w0 ++ [e] /\
    (card_state (snd r), (ex_resp e, ex_sw e)) =
      cardOk (card_state w0) (ex_apdu e) /\
    ex_apdu e = mkApdu 0xFF 0x86 0x00 0x00 (Data payload) /\
    ex_expect e = None /\
    length payload = 5%nat /\
    byteZ <$> payload !! 0%nat = Some 0x01 /\
    ByteStr.toUnsigned (take 2 (drop 1 payload)) = 7 /\
    byteZ <$> payload !! 3%nat = Some 0x61 /\
    byteZ <$> payload !! 4%nat =
      Some (if (0x60 =? 0x60) || (0x60 =? 0x61) then 0x01 else 0x60) /\
    SW (snd r) = ex_sw e /\
    fst r = Ok (ex_sw e =? 0x9000).
Proof. apply (authenticate_payload cardOk 7 0x61 0x60 w0); lia. Defined.

Lemma readAll_exchanges_witness :
  let r := Sector.readAll cardOk None (Sector.new 1, w0) in
  exists a rs,
    plays cardOk w0 (a :: rs) (snd (snd r)) /\
    log (snd (snd r)) = log w0 ++ a :: rs /\
    ex_apdu a = authApdu (4 * 1 + 0) Mifare.KEY_A 0 /\
    ex_expect a = None /\
    (length rs <= 4)%nat /\
    (forall j e, rs !! j = Some e ->
       ex_apdu e = readApdu (4 * 1 + Z.of_nat j) /\
       ex_expect e = Some [0x9000]) /\
    match fst r with
    | Ok out =>
        length rs = 4%nat /\ Forall accepted rs /\ out = concat (ex_resp <$> rs)
    | Err x =>
        x = GPError /\
        exists rs' e, rs = rs' ++ [e] /\ Forall accepted rs' /\ ~ accepted e
    end.
Proof.
  apply (readAll_exchanges cardOk None 0 (Sector.new 1) w0);
    [simpl; lia | vm_compute; reflexivity].
Defined.


Lemma authenticatePublic_first_match_witness :
  let r := Sector.authenticatePublic cardOk 3 Mifare.KEY_A (Sector.new 1, w0) in
  map (map byteZ) Mifare.PUBLICKEYS =
    [ [0xFF; 0xFF; 0xFF; 0xFF; 0xFF; 0xFF]; [0xA0; 0xA1; 0xA2; 0xA3; 0xA4; 0xA5];
      [0xB0; 0xB1; 0xB2; 0xB3; 0xB4; 0xB5]; [0xD3; 0xF7; 0xD3; 0xF7; 0xD3; 0xF7] ] /\
  fst (snd r) = Sector.new 1 /\
  exists es failed,
    plays cardOk w0 es (snd (snd r)) /\
    log (snd (snd r)) = log w0 ++ es /\
    Forall2 (probe_of 0 (4 * 1 + 3) Mifare.KEY_A)
            (take (length failed) Mifare.PUBLICKEYS) failed /\
    Forall (fun p => ~ accepted (snd p)) failed /\
    match fst r with
    | Ok j =>
        (j = -1 /\ length failed = 4%nat /\ es = flatten failed) \/
        (exists key won,
            Mifare.PUBLICKEYS !! length failed = Some key /\
            j = Z.of_nat (length failed) /\
            probe_of 0 (4 * 1 + 3) Mifare.KEY_A key won /\
            accepted (snd won) /\
            es = flatten failed ++ [fst won; snd won])
    | Err x =>
        x = GPError /\
        exists key l,
          Mifare.PUBLICKEYS !! length failed = Some key /\
          ex_apdu l = loadKeyApdu 0 key /\
          ex_expect l = Some [0x9000] /\
          ~ accepted l /\
          es = flatten failed ++ [l]
    end.
Proof.
  apply (authenticatePublic_first_match cardOk 3 Mifare.KEY_A 0 (Sector.new 1) w0);
    [simpl; lia | vm_compute; reflexivity].
Defined.

(** ** Where the specification says more than the code does *)

(** C6 as stated fails: a card that answers the authentication and the
    first two reads with 0x9000 and refuses the third read sees three reads,
    not four, and [readAll] returns nothing. *)
Lemma readAll_stops_at_refused_read :
  let r := Sector.readAll (card_until 3) None (Sector.new 1, wn) in
  fst r = Err GPError /\
  ex_apdu <$> log (snd (snd r)) =
    [authApdu 4 Mifare.KEY_A 0; readApdu 4; readApdu 5; readApdu 6] /\
  ex_sw <$> log (snd (snd r)) = [0x9000; 0x9000; 0x9000; 0x6982].
Proof. vm_compute. repeat split. Qed.


(** C5 as stated fails: on a reader that refuses Load Key,
    [authenticatePublic] returns neither an index nor -1; it fails at the
    first candidate, and no authentication is attempted. *)
Lemma authenticatePublic_refused_loadKey :
  let r := Sector.authenticatePublic rejecting 0 Mifare.KEY_A (Sector.new 1, w0) in
  fst r = Err GPError /\
  ex_apdu <$> log (snd (snd r)) =
    [loadKeyApdu 0 (ByteStr.ofList [0xFF; 0xFF; 0xFF; 0xFF; 0xFF; 0xFF])] /\
  ex_sw <$> log (snd (snd r)) = [0x6982].
Proof. vm_compute. repeat split. Qed.

(** C2 as stated fails: [setACforBlock(4, 7)] is accepted, and on the
    trailer field FF0780 it leaves FF0F10, where nibble 2 is F although the
    complement of nibble 1 is E. *)
Lemma setACforBlock_block_4_not_redundant :
  exists s' d',
    Sector.setACforBlock s0 4 7 = Ok s' /\
    Sector.blocks s' !! 3 = Some d' /\
    ByteStr.bytes d' 6 3 = Ok (ByteStr.ofList [0xFF; 0x0F; 0x10]) /\
    ByteStr.toUnsigned (ByteStr.ofList [0xFF; 0x0F; 0x10]) = 0xFF0F10 /\
    nibble 0xFF0F10 2 = 0xF /\
    Z.land (Z.lnot (nibble 0xFF0F10 1)) 0xF = 0xE /\
    ~ redundant 0xFF0F10.
Proof.
  eexists _, _. split; [vm_compute; reflexivity|].
  split; [vm_compute; reflexivity|].
  split; [vm_compute; reflexivity|].
  split; [vm_compute; reflexivity|].
  split; [vm_compute; reflexivity|].
  split; [vm_compute; reflexivity|].
  intros (_ & _ & H). vm_compute in H. discriminate H.
Qed.

(** ** The further properties at sample values *)

Lemma getACforBlock_range_witness :
  exists v, Sector.getACforBlock s0 3 = Ok v /\ 0 <= v <= 7.
Proof.
  apply (getACforBlock_range s0 tr0 3); [vm_compute; reflexivity | reflexivity | lia].
Defined.

Lemma setACforBlock_truncates_witness :
  exists s',
    Sector.setACforBlock s0 0 13 = Ok s' /\
    Sector.getACforBlock s' 0 = Ok (13 mod 8).
Proof.
  apply (setACforBlock_truncates s0 tr0 0 13);
    [vm_compute; reflexivity | reflexivity | lia].
Defined.

Lemma setACforBlock_frame_witness :
  exists s' d',
    Sector.setACforBlock s0 2 4 = Ok s' /\
    Sector.blocks s' !! 3 = Some d' /\
    length d' = 16%nat /\
    (forall k, (k < 6 \/ 9 <= k)%nat -> d' !! k = tr0 !! k) /\
    (forall b, b <> 3 -> Sector.blocks s' !! b = Sector.blocks s0 !! b) /\
    Sector.no s' = Sector.no s0 /\ Sector.keyid s' = Sector.keyid s0.
Proof.
  apply (setACforBlock_frame s0 tr0 2 4);
    [vm_compute; reflexivity | reflexivity | lia].
Defined.

Lemma setACforBlock_out_of_range_witness :
  Sector.clearAC (acField tr0) 4 = 0 /\
  0 <= Sector.encodeAC 0 4 7 < 2 ^ 24 /\
  exists s' d' f,
    Sector.setACforBlock s0 4 7 = Ok s' /\
    Sector.blocks s' !! 3 = Some d' /\
    ByteStr.bytes d' 6 3 = Ok f /\
    ByteStr.toUnsigned f = Sector.encodeAC 0 4 7.
Proof.
  apply (setACforBlock_out_of_range s0 tr0 4 7);
    [vm_compute; reflexivity | reflexivity | lia].
Defined.

Lemma trailer_helpers_need_cache_witness :
  (forall block, Sector.getACforBlock (Sector.new 1) block = Err TypeError) /\
  (forall block ac, Sector.setACforBlock (Sector.new 1) block ac = Err TypeError) /\
  (forall key, Sector.setKeyA (Sector.new 1) key = Err TypeError) /\
  (forall key, Sector.setKeyB (Sector.new 1) key = Err TypeError) /\
  (forall db, Sector.setHeaderDataByte (Sector.new 1) db = Err TypeError).
Proof. apply (trailer_helpers_need_cache (Sector.new 1)). reflexivity. Defined.

Lemma setACforBlock_overwrites_witness :
  rbind (Sector.setACforBlock s0 1 3) (fun s' => Sector.setACforBlock s' 1 6) =
  Sector.setACforBlock s0 1 6.
Proof.
  apply (setACforBlock_overwrites s0 tr0 1 3 6);
    [vm_compute; reflexivity | reflexivity | lia].
Defined.

Lemma setACforBlock_commutes_witness :
  rbind (Sector.setACforBlock s0 0 4) (fun s' => Sector.setACforBlock s' 3 3) =
  rbind (Sector.setACforBlock s0 3 3) (fun s' => Sector.setACforBlock s' 0 4).
Proof.
  apply (setACforBlock_commutes s0 tr0 0 3 4 3);
    [vm_compute; reflexivity | reflexivity | lia | lia | lia].
Defined.

Lemma setACforBlock_of_getACforBlock_witness :
  Sector.setACforBlock s0 3 1 = Ok s0.
Proof.
  apply (setACforBlock_of_getACforBlock s0 tr0 3 1);
    [vm_compute; reflexivity | reflexivity | lia
    | repeat split; vm_compute; reflexivity | vm_compute; reflexivity].
Defined.

Lemma crc8_detects_byte_error_witness :
  Mifare.crc8 ([x01] ++ x02 :: [x03]) <> Mifare.crc8 ([x01] ++ x07 :: [x03]).
Proof. apply (crc8_detects_byte_error [x01] [x03] x02 x07). discriminate. Defined.

Lemma read_caches_witness :
  let r := Sector.read cardOk 2 (Sector.new 1, w0) in
  let s' := fst (snd r) in
  exists e,
    log (snd (snd r)) = log w0 ++ [e] /\
    (card_state (snd (snd r)), (ex_resp e, ex_sw e)) =
      cardOk (card_state w0) (ex_apdu e) /\
    ex_apdu e = mkApdu 0xFF 0xB0 ((4 * 1 + 2) / 256) ((4 * 1 + 2) mod 256) (Le 16) /\
    ex_expect e = Some [0x9000] /\
    (ex_sw e = 0x9000 ->
       fst r = Ok (ex_resp e) /\
       Sector.blocks s' !! 2 = Some (ex_resp e) /\
       (forall b, b <> 2 -> Sector.blocks s' !! b = Sector.blocks (Sector.new 1) !! b) /\
       Sector.keyid s' = Sector.keyid (Sector.new 1) /\
       Sector.no s' = Sector.no (Sector.new 1)) /\
    (ex_sw e <> 0x9000 -> fst r = Err GPError /\ s' = Sector.new 1).
Proof. apply (read_caches cardOk 2 (Sector.new 1) w0); simpl; lia. Defined.

Lemma read_out_of_range_witness :
  Sector.read cardOk 4 (Sector.new 1, w0) = (Err AssertionError, (Sector.new 1, w0)).
Proof. apply (read_out_of_range cardOk 4 (Sector.new 1) w0). lia. Defined.

Lemma update_cached_witness :
  let r := Sector.update cardOk 3 None (s0, w0) in
  match Sector.blocks s0 !! 3 with
  | None => r = (Err TypeError, (s0, w0))
  | Some d =>
      if (length d =? 16)%nat then
        exists e,
          log (snd (snd r)) = log w0 ++ [e] /\
          (card_state (snd (snd r)), (ex_resp e, ex_sw e)) =
            cardOk (card_state w0) (ex_apdu e) /\
          ex_apdu e = mkApdu 0xFF 0xD6 ((4 * Sector.no s0 + 3) / 256)
                             ((4 * Sector.no s0 + 3) mod 256) (Data d) /\
          ex_expect e = Some [0x9000] /\
          fst (snd r) = s0 /\
          (ex_sw e = 0x9000 -> fst r = Ok tt) /\
          (ex_sw e <> 0x9000 -> fst r = Err GPError)
      else r = (Err AssertionError, (s0, w0))
  end.
Proof. apply (update_cached cardOk 3 s0 w0); simpl; lia. Defined.

Lemma update_caches_first_witness :
  let r := Sector.update rejecting 1 (Some key0) (Sector.new 1, w0) in
  let s' := fst (snd r) in
  Sector.blocks s' !! 1 = Some key0 /\
  (forall b, b <> 1 -> Sector.blocks s' !! b = Sector.blocks (Sector.new 1) !! b) /\
  if (length key0 =? 16)%nat then
    exists e,
      log (snd (snd r)) = log w0 ++ [e] /\
      ex_apdu e = mkApdu 0xFF 0xD6 ((4 * Sector.no (Sector.new 1) + 1) / 256)
                         ((4 * Sector.no (Sector.new 1) + 1) mod 256) (Data key0) /\
      ex_expect e = Some [0x9000] /\
      (ex_sw e = 0x9000 -> fst r = Ok tt) /\
      (ex_sw e <> 0x9000 -> fst r = Err GPError)
  else fst r = Err AssertionError /\ snd (snd r) = w0.
Proof.
  apply (update_caches_first rejecting 1 key0 (Sector.new 1) w0); simpl; lia.
Defined.

Lemma Sector_authenticate_uses_keyid_witness :
  let r := Sector.authenticate cardOk 3 Mifare.KEY_B (Sector.new 2, w0) in
  exists e,
    log (snd (snd r)) = log w0 ++ [e] /\
    (card_state (snd (snd r)), (ex_resp e, ex_sw e)) =
      cardOk (card_state w0) (ex_apdu e) /\
    ex_apdu e = authApdu (4 * Sector.no (Sector.new 2) + 3) Mifare.KEY_B 1 /\
    ex_expect e = None /\
    fst r = Ok (ex_sw e =? 0x9000) /\
    fst (snd r) = Sector.new 2.
Proof.
  apply (Sector_authenticate_uses_keyid cardOk 3 Mifare.KEY_B 1 (Sector.new 2) w0);
    [simpl; lia | vm_compute; reflexivity].
Defined.

Lemma setKeyId_then_authenticate_witness :
  let kt := default Mifare.KEY_A (Some Mifare.KEY_B) in
  let s' := Sector.setKeyId (Sector.new 2) 5 (Some Mifare.KEY_B) in
  let r := Sector.authenticate cardOk 0 kt (s', w0) in
  Sector.keyid s' !! (kt - Mifare.KEY_A) = Some 5 /\
  (forall kt', kt' <> kt ->
     Sector.keyid s' !! (kt' - Mifare.KEY_A) =
     Sector.keyid (Sector.new 2) !! (kt' - Mifare.KEY_A)) /\
  Sector.blocks s' = Sector.blocks (Sector.new 2) /\
  Sector.no s' = Sector.no (Sector.new 2) /\
  exists e,
    log (snd (snd r)) = log w0 ++ [e] /\
    ex_apdu e = authApdu (4 * Sector.no (Sector.new 2) + 0) kt 5 /\
    fst r = Ok (ex_sw e =? 0x9000).
Proof.
  apply (setKeyId_then_authenticate cardOk 5 (Some Mifare.KEY_B) 0 (Sector.new 2) w0).
  simpl. lia.
Defined.


Lemma authenticatePublic_without_keyid_witness :
  Sector.authenticatePublic cardOk 0 0x62 (Sector.new 1, w0) =
  (Err AssertionError, (Sector.new 1, w0)).
Proof.
  apply (authenticatePublic_without_keyid cardOk 0 0x62 (Sector.new 1) w0).
  vm_compute. reflexivity.
Defined.
